(** * Conversation engine of the chat client (src/App.js)

    A shallow embedding of the two variants of [App.js]: the send pipeline
    [handleSendMessage], the speech clean-up inside [speak] and the display
    transform [formatText], with the properties of the specification proved
    or refuted on the embedding. *)

From Stdlib Require Import List NArith ZArith Bool Lia Ascii.
From Stdlib Require String DecimalString PrimFloat Uint63.
Import ListNotations.
Import String.StringSyntax.
Delimit Scope string_scope with string.
Bind Scope string_scope with String.string.

Local Open Scope N_scope.
Local Open Scope list_scope.

(* ===================================================================== *)
(** ** JavaScript strings *)
(* ===================================================================== *)

(** A JavaScript string is a sequence of UTF-16 code units; the regular
    expressions of the source have no [u] flag and work on code units. *)
Definition code_unit := N.
Definition jsstring := list code_unit.

(** An ASCII literal of the source as a JavaScript string. *)
Definition str (s : String.string) : jsstring :=
  map N_of_ascii (String.list_ascii_of_string s).

Definition LF : code_unit := 10.
Definition SPACE : code_unit := 32.
Definition ASTERISK : code_unit := 42.
Definition LT : code_unit := 60.
Definition GT : code_unit := 62.
Definition BACKTICK : code_unit := 96.
Definition DQUOTE : code_unit := 34.

(** LineTerminator: LF, CR, LS, PS.  The [.] of a regular expression
    matches every code unit but these; [^] with the [m] flag matches after
    one of them. *)
Definition is_line_terminator (c : code_unit) : bool :=
  (c =? 10) || (c =? 13) || (c =? 8232) || (c =? 8233).

(** WhiteSpace and LineTerminator: the class [\s], and what
    [String.prototype.trim] strips. *)
Definition is_white_space (c : code_unit) : bool :=
  (c =? 9) || (c =? 10) || (c =? 11) || (c =? 12) || (c =? 13) || (c =? 32)
  || (c =? 160) || (c =? 5760) || ((8192 <=? c) && (c <=? 8202))
  || (c =? 8232) || (c =? 8233) || (c =? 8239) || (c =? 8287)
  || (c =? 12288) || (c =? 65279).

Definition is_digit (c : code_unit) : bool := (48 <=? c) && (c <=? 57).

Fixpoint jsstring_eqb (a b : jsstring) : bool :=
  match a, b with
  | [], [] => true
  | x :: a', y :: b' => (x =? y) && jsstring_eqb a' b'
  | _, _ => false
  end.

Fixpoint starts_with (p s : jsstring) : bool :=
  match p, s with
  | [], _ => true
  | x :: p', y :: s' => (x =? y) && starts_with p' s'
  | _ :: _, [] => false
  end.

(** [String.prototype.trim]. *)
Fixpoint trimStart (s : jsstring) : jsstring :=
  match s with
  | [] => []
  | c :: r => if is_white_space c then trimStart r else s
  end.

Fixpoint trimEnd (s : jsstring) : jsstring :=
  match s with
  | [] => []
  | c :: r =>
      match trimEnd r with
      | [] => if is_white_space c then [] else [c]
      | r' => c :: r'
      end
  end.

Definition trim (s : jsstring) : jsstring := trimEnd (trimStart s).

(* ===================================================================== *)
(** ** [String.prototype.replace] with a global regular expression *)
(* ===================================================================== *)

(** A matcher is one regular expression together with its replacement,
    tried at one position: [m prev s] is given the code unit before the
    position (if any) and the rest [s] of the subject, and answers
    [Some (rep, n)] when the expression matches there, the match being the
    first [n + 1] code units of [s] and [rep] the text put in its place.
    Every expression of the source needs at least one code unit. *)
Definition matcher := option code_unit -> jsstring -> option (jsstring * nat).

(** The scan of [subject.replace(re, ...)] with the [g] flag: matches are
    looked for from left to right, each search starting where the previous
    match ended; what lies between the matches is copied.  [skip] counts
    the code units of the current match still to pass over. *)
Fixpoint replace_from (m : matcher) (skip : nat) (prev : option code_unit)
         (s : jsstring) : jsstring :=
  match s with
  | [] => []
  | c :: r =>
      match skip with
      | S k => replace_from m k (Some c) r
      | O =>
          match m prev s with
          | Some (rep, n) => rep ++ replace_from m n (Some c) r
          | None => c :: replace_from m 0 (Some c) r
          end
      end
  end.

Definition replace (m : matcher) (s : jsstring) : jsstring :=
  replace_from m 0 None s.

(** The longest prefix of [s] made of code units in the class [p]
    (a greedy [p*]), as its length. *)
Fixpoint run_length (p : code_unit -> bool) (s : jsstring) : nat :=
  match s with
  | c :: r => if p c then S (run_length p r) else O
  | [] => O
  end.

(** A lazy [(.*?)] followed by the literal [d]: the shortest run of
    code units other than line terminators after which [d] stands. *)
Fixpoint lazy_until (d s : jsstring) : option jsstring :=
  if starts_with d s then Some []
  else match s with
       | [] => None
       | c :: r =>
           if is_line_terminator c then None
           else match lazy_until d r with
                | Some cap => Some (c :: cap)
                | None => None
                end
       end.

(** [/d(.*?)d/g] replaced by [before $1 after]. *)
Definition delimited (d before after : jsstring) : matcher :=
  fun _ s =>
    if starts_with d s then
      match lazy_until d (skipn (length d) s) with
      | Some cap =>
          Some (before ++ cap ++ after,
                 pred (length d + length cap + length d))
      | None => None
      end
    else None.

(** A literal [/lit/g] replaced by [rep]. *)
Definition literal (lit rep : jsstring) : matcher :=
  fun _ s =>
    if starts_with lit s then
      match lit with
      | [] => None
      | _ :: l => Some (rep, length l)
      end
    else None.

(** [/<[^>]*>/g] replaced by the empty string: from a [<] up to the first
    [>] after it; no match when no [>] follows. *)
Definition html_tag : matcher :=
  fun _ s =>
    match s with
    | c :: r =>
        if c =? LT then
          let n := run_length (fun x => negb (x =? GT)) r in
          match skipn n r with
          | _ :: _ => Some ([], S n)
          | [] => None
          end
        else None
    | [] => None
    end.

(** [/\s+/g] replaced by one space. *)
Definition white_space_run : matcher :=
  fun _ s =>
    match run_length is_white_space s with
    | S n => Some ([SPACE], n)
    | O => None
    end.

(** [/\n{3,}/g] replaced by two line feeds. *)
Definition blank_lines : matcher :=
  fun _ s =>
    let n := run_length (fun x => x =? LF) s in
    if (3 <=? n)%nat then Some ([LF; LF], pred n) else None.

(** [^] under the [m] flag: at the start of the subject or after a line
    terminator. *)
Definition at_line_start (prev : option code_unit) : bool :=
  match prev with
  | None => true
  | Some c => is_line_terminator c
  end.

(** [/^\s*[marks]\s*/gm] replaced by the empty string.  The classes [\s]
    and [marks] are disjoint, so the greedy [\s*] never gives back. *)
Definition list_marker (marks : code_unit -> bool) : matcher :=
  fun prev s =>
    if at_line_start prev then
      let a := run_length is_white_space s in
      match skipn a s with
      | c :: r =>
          if marks c then Some ([], a + run_length is_white_space r)%nat
          else None
      | [] => None
      end
    else None.

(** [/^\s*[0-9]+\.\s*/gm] replaced by the empty string. *)
Definition numbered_marker : matcher :=
  fun prev s =>
    if at_line_start prev then
      let a := run_length is_white_space s in
      let s1 := skipn a s in
      match run_length is_digit s1 with
      | S d =>
          match skipn (S d) s1 with
          | c :: r =>
              if c =? 46 then
                Some ([], a + S d + run_length is_white_space r)%nat
              else None
          | [] => None
          end
      | O => None
      end
    else None.

(* ===================================================================== *)
(** ** JavaScript values *)
(* ===================================================================== *)

(** What [JSON.parse] builds, and [undefined], which reading an absent
    property gives. *)
#[warnings="-register-all"]
Inductive jsval : Type :=
| Undefined
| Null
| Bool (b : bool)
| Num (x : PrimFloat.float)
| Str (s : jsstring)
| Arr (items : list jsval)
| Obj (fields : list (jsstring * jsval)).

(** The errors of a turn are [Error] objects; [message] is all the source
    reads of them. *)
Inductive JsError : Type := Error (message : jsstring).

Definition message (e : JsError) : jsstring :=
  match e with Error m => m end.

(** The two ways in which the engine itself raises a [TypeError] here. *)
Inductive type_error : Type :=
| ReadOfNullish (base : jsval) (key : jsstring)
| NotAFunction (receiver : jsval) (key : jsstring).

(** What the source leaves to the JavaScript engine: the conversions of
    values that are neither strings nor numbers, and the wording of the
    engine's own errors. *)
Record Runtime : Type := {
  ToNumber : jsval -> PrimFloat.float;
  ToString : jsval -> jsstring;
  TypeError_message : type_error -> jsstring
}.

Inductive res (A : Type) : Type :=
| Ok (a : A)
| Throw (e : JsError).
Arguments Ok {A} a.
Arguments Throw {A} e.

Definition res_bind {A B} (r : res A) (k : A -> res B) : res B :=
  match r with
  | Ok a => k a
  | Throw e => Throw e
  end.

Declare Scope res_scope.
Delimit Scope res_scope with res.
Notation "x <- a ;; b" := (res_bind a (fun x => b))
  (at level 61, a at next level, right associativity) : res_scope.

Section Values.

Variable rt : Runtime.

Definition TypeError (t : type_error) : JsError :=
  Error (TypeError_message rt t).

(** [ToBoolean]. *)
Definition truthy (v : jsval) : bool :=
  match v with
  | Undefined | Null => false
  | Bool b => b
  | Num x => negb (PrimFloat.eqb x PrimFloat.zero) && negb (PrimFloat.is_nan x)
  | Str s => match s with [] => false | _ => true end
  | Arr _ | Obj _ => true
  end.

Definition number_of_nat (n : nat) : PrimFloat.float :=
  PrimFloat.of_uint63 (Uint63.of_Z (Z.of_nat n)).

Fixpoint lookup (k : jsstring) (fields : list (jsstring * jsval)) : jsval :=
  match fields with
  | [] => Undefined
  | (k', v) :: r => if jsstring_eqb k k' then v else lookup k r
  end.

(** [v.k] for the names the source reads ([candidates], [content],
    [parts], [text], [length], [error], [message]): [length] is the only
    one of them that arrays and strings have of their own. *)
Definition get_prop (v : jsval) (k : jsstring) : res jsval :=
  match v with
  | Undefined | Null => Throw (TypeError (ReadOfNullish v k))
  | Obj fields => Ok (lookup k fields)
  | Arr items =>
      if jsstring_eqb k (str "length")
      then Ok (Num (number_of_nat (length items)))
      else Ok Undefined
  | Str s =>
      if jsstring_eqb k (str "length")
      then Ok (Num (number_of_nat (length s)))
      else Ok Undefined
  | Bool _ | Num _ => Ok Undefined
  end.

(** [v[0]]. *)
Definition get_first (v : jsval) : res jsval :=
  match v with
  | Undefined | Null => Throw (TypeError (ReadOfNullish v (str "0")))
  | Obj fields => Ok (lookup (str "0") fields)
  | Arr items => Ok (match items with x :: _ => x | [] => Undefined end)
  | Str s => Ok (match s with c :: _ => Str [c] | [] => Undefined end)
  | Bool _ | Num _ => Ok Undefined
  end.

(** [v > 0]. *)
Definition gt_zero (v : jsval) : bool :=
  match v with
  | Undefined | Null => false
  | Bool b => b
  | Num x => PrimFloat.ltb PrimFloat.zero x
  | Str _ | Arr _ | Obj _ => PrimFloat.ltb PrimFloat.zero (ToNumber rt v)
  end.

(** The receiver of a call [v.name(...)] of a [String.prototype] method:
    only a string has the method. *)
Definition string_receiver (v : jsval) (name : jsstring) : res jsstring :=
  match v with
  | Str s => Ok s
  | Undefined | Null => Throw (TypeError (ReadOfNullish v name))
  | _ => Throw (TypeError (NotAFunction v name))
  end.

(** [new Error(v)] for a [v] other than [undefined]. *)
Definition new_Error (v : jsval) : JsError :=
  match v with
  | Str s => Error s
  | _ => Error (ToString rt v)
  end.

Local Open Scope res_scope.

(** The condition of lines 140 and 550. *)
Definition has_generated_part (result : jsval) : res bool :=
  candidates <- get_prop result (str "candidates") ;;
  if negb (truthy candidates) then Ok false else
  n <- get_prop candidates (str "length") ;;
  if negb (gt_zero n) then Ok false else
  first <- get_first candidates ;;
  content <- get_prop first (str "content") ;;
  if negb (truthy content) then Ok false else
  parts <- get_prop content (str "parts") ;;
  if negb (truthy parts) then Ok false else
  k <- get_prop parts (str "length") ;;
  Ok (gt_zero k).

(** [result.candidates[0].content.parts[0].text]. *)
Definition first_part_text (result : jsval) : res jsval :=
  candidates <- get_prop result (str "candidates") ;;
  first <- get_first candidates ;;
  content <- get_prop first (str "content") ;;
  parts <- get_prop content (str "parts") ;;
  part <- get_first parts ;;
  get_prop part (str "text").

End Values.

(* ===================================================================== *)
(** ** The state of the component and its surroundings *)
(* ===================================================================== *)

Inductive Sender : Type := user | ai.

Definition Sender_eqb (a b : Sender) : bool :=
  match a, b with
  | user, user | ai, ai => true
  | _, _ => false
  end.

(** A message of the history.  [error] is [true] on the messages built
    with [error: true] and [false] where the field is absent; [text] is a
    string on every message but the reply of the first variant, which
    stores whatever the response holds. *)
Record Message : Type := {
  text : jsval;
  sender : Sender;
  error : bool;
  id : Z
}.

(** One entry of [contents]: [{ role, parts: [{ text }] }]. *)
Record Content : Type := {
  role : jsstring;
  part_text : jsval
}.

(** A call of [fetch]: the address and the payload handed to
    [JSON.stringify]. *)
Record Request : Type := {
  url : jsstring;
  contents : list Content
}.

(** The state hooks of [App] that the pipeline touches, the clock, and
    what the pipeline did to its surroundings: the calls of [fetch], the
    utterances given to the speech synthesis, the errors logged. *)
Record World : Type := {
  messages : list Message;
  input : jsstring;
  isTyping : bool;
  voiceOutput : bool;
  apiKey : jsstring;
  speechSynthesis : bool;
  now : Z;
  fetched : list Request;
  spoken : list jsstring;
  console : list JsError
}.

Definition setMessages (f : list Message -> list Message) (w : World) : World :=
  {| messages := f (messages w); input := input w; isTyping := isTyping w;
     voiceOutput := voiceOutput w; apiKey := apiKey w;
     speechSynthesis := speechSynthesis w; now := now w;
     fetched := fetched w; spoken := spoken w; console := console w |}.

Definition setInput (s : jsstring) (w : World) : World :=
  {| messages := messages w; input := s; isTyping := isTyping w;
     voiceOutput := voiceOutput w; apiKey := apiKey w;
     speechSynthesis := speechSynthesis w; now := now w;
     fetched := fetched w; spoken := spoken w; console := console w |}.

Definition setIsTyping (b : bool) (w : World) : World :=
  {| messages := messages w; input := input w; isTyping := b;
     voiceOutput := voiceOutput w; apiKey := apiKey w;
     speechSynthesis := speechSynthesis w; now := now w;
     fetched := fetched w; spoken := spoken w; console := console w |}.

Definition fetch (r : Request) (w : World) : World :=
  {| messages := messages w; input := input w; isTyping := isTyping w;
     voiceOutput := voiceOutput w; apiKey := apiKey w;
     speechSynthesis := speechSynthesis w; now := now w;
     fetched := fetched w ++ [r]; spoken := spoken w; console := console w |}.

Definition utter (s : jsstring) (w : World) : World :=
  {| messages := messages w; input := input w; isTyping := isTyping w;
     voiceOutput := voiceOutput w; apiKey := apiKey w;
     speechSynthesis := speechSynthesis w; now := now w;
     fetched := fetched w; spoken := spoken w ++ [s]; console := console w |}.

Definition console_error (e : JsError) (w : World) : World :=
  {| messages := messages w; input := input w; isTyping := isTyping w;
     voiceOutput := voiceOutput w; apiKey := apiKey w;
     speechSynthesis := speechSynthesis w; now := now w;
     fetched := fetched w; spoken := spoken w; console := console w ++ [e] |}.

(** The passing of time while the request is under way. *)
Definition tick (later : Z) (w : World) : World :=
  {| messages := messages w; input := input w; isTyping := isTyping w;
     voiceOutput := voiceOutput w; apiKey := apiKey w;
     speechSynthesis := speechSynthesis w; now := later;
     fetched := fetched w; spoken := spoken w; console := console w |}.

(** What the awaited [fetch] settles to.  [response.ok] is a function of
    the status; [response.json()] rejects with the engine's [SyntaxError]
    on a body that is not JSON. *)
Inductive Body : Type :=
| NotJson (syntax_error : jsstring)
| Json (v : jsval).

Inductive Settled : Type :=
| Rejected (reason : jsstring)
| Response (status : N) (body : Body).

Definition response_ok (status : N) : bool :=
  (200 <=? status) && (status <=? 299).

Definition response_json (b : Body) : res jsval :=
  match b with
  | NotJson m => Throw (Error m)
  | Json v => Ok v
  end.

(** Statements that change the world and may throw. *)
Definition io (A : Type) : Type := World -> res A * World.

Definition ret {A} (a : A) : io A := fun w => (Ok a, w).
Definition throw {A} (e : JsError) : io A := fun w => (Throw e, w).
Definition eval {A} (r : res A) : io A := fun w => (r, w).
Definition effect (f : World -> World) : io unit := fun w => (Ok tt, f w).

Definition bind {A B} (a : io A) (k : A -> io B) : io B :=
  fun w =>
    match a w with
    | (Ok x, w') => k x w'
    | (Throw e, w') => (Throw e, w')
    end.

(** [try { body } catch (e) { handler } finally { final }]. *)
Definition try_catch_finally (body : io unit) (handler : JsError -> io unit)
           (final : io unit) : io unit :=
  fun w =>
    match body w with
    | (Ok _, w1) => final w1
    | (Throw e, w1) =>
        match handler e w1 with
        | (Ok _, w2) => final w2
        | (Throw e', w2) =>
            match final w2 with
            | (Ok _, w3) => (Throw e', w3)
            | (Throw e'', w3) => (Throw e'', w3)
            end
        end
    end.

Declare Scope io_scope.
Delimit Scope io_scope with io.
Notation "x <- a ;; b" := (bind a (fun x => b))
  (at level 61, a at next level, right associativity) : io_scope.
Notation "a ;; b" := (bind a (fun _ => b))
  (at level 61, right associativity) : io_scope.

(** What the suspended call keeps of the render it was started from:
    [settings] is read after the [await]s, from the closure. *)
Record Frame : Type := {
  frame_voiceOutput : bool
}.

Definition apiUrl (key : jsstring) : jsstring :=
  str "https://generativelanguage.googleapis.com/v1beta/models/gemini-2.5-flash-preview-05-20:generateContent?key="
  ++ key.

Definition chatHistory (newMessages : list Message) : list Content :=
  map (fun msg =>
         {| role := if Sender_eqb (sender msg) user then str "user"
                    else str "model";
            part_text := text msg |})
      newMessages.

(** [handleSendMessage] up to its first [await] (lines 105-130 and
    516-540, the same text in both variants): the guard, the user message,
    the request.  [None] is the early [return]. *)
Definition handleSendMessage_begin (w : World) : World * option Frame :=
  if jsstring_eqb (trim (input w)) [] || isTyping w then (w, None)
  else
    let userMessage :=
      {| text := Str (input w); sender := user; error := false;
         id := now w |} in
    let newMessages := messages w ++ [userMessage] in
    let w1 := setMessages (fun _ => newMessages) w in
    let w2 := setInput [] w1 in
    let w3 := setIsTyping true w2 in
    let w4 := fetch {| url := apiUrl (apiKey w);
                       contents := chatHistory newMessages |} w3 in
    (w4, Some {| frame_voiceOutput := voiceOutput w |}).

Definition fallback : jsstring :=
  str "I'm sorry, I couldn't generate a response. Please try again.".

Definition decimal (n : N) : jsstring :=
  str (DecimalString.NilZero.string_of_uint (N.to_uint n)).

Module Variant1.
Section Pipeline.

Variable rt : Runtime.
Local Open Scope io_scope.

(** [speak] (lines 175-181). *)
Definition speak (text : jsstring) : io unit :=
  fun w =>
    if speechSynthesis w && truthy (Str text)
    then effect (utter text) w
    else ret tt w.

(** The body of the [try] from the settling of [fetch] on
    (lines 132-151). *)
Definition try_body (fr : Frame) (settled : Settled) : io unit :=
  match settled with
  | Rejected reason => throw (Error reason)
  | Response status body =>
      if negb (response_ok status) then
        errorData <- eval (response_json body) ;;
        e <- eval (get_prop rt errorData (str "error")) ;;
        m <- eval (get_prop rt e (str "message")) ;;
        throw (new_Error rt
                 (if truthy m then m
                  else Str (str "API call failed with status: "
                            ++ decimal status)))
      else
        result <- eval (response_json body) ;;
        found <- eval (has_generated_part rt result) ;;
        aiResponseText <-
          (if found : bool then eval (first_part_text rt result)
           else ret (Str fallback)) ;;
        stamp <- (fun w => (Ok (now w), w)) ;;
        effect (setMessages (fun prev =>
          prev ++ [{| text := aiResponseText; sender := ai;
                      error := false; id := stamp + 1 |}])) ;;
        if frame_voiceOutput fr then
          t <- eval (string_receiver rt aiResponseText (str "trim")) ;;
          speak (trim t)
        else ret tt
  end.

(** The [catch] block (lines 153-156). *)
Definition catch_block (e : JsError) : io unit :=
  effect (console_error e) ;;
  stamp <- (fun w => (Ok (now w), w)) ;;
  effect (setMessages (fun prev =>
    prev ++ [{| text := Str (str "Sorry, something went wrong: " ++ message e);
                sender := ai; error := true; id := stamp + 1 |}])).

(** [handleSendMessage] from the settling of [fetch] to its end. *)
Definition handleSendMessage_resume (fr : Frame) (settled : Settled)
  : World -> World :=
  fun w =>
    snd (try_catch_finally (try_body fr settled) catch_block
           (effect (setIsTyping false)) w).

(** One call of [handleSendMessage] with nothing else happening while
    the request is under way; [later] is the clock at its settling. *)
Definition handleSendMessage (settled : Settled) (later : Z) (w : World)
  : World :=
  match handleSendMessage_begin w with
  | (w1, Some fr) => handleSendMessage_resume fr settled (tick later w1)
  | (w1, None) => w1
  end.

End Pipeline.
End Variant1.

Module Variant2.

(** The clean-up inside [speak] (lines 598-605). *)
Definition cleanText (text : jsstring) : jsstring :=
  trim
    (replace white_space_run
    (replace (literal [LF] [SPACE])
    (replace (literal [BACKTICK] [])
    (replace (literal [ASTERISK] [])
    (replace (literal [ASTERISK; ASTERISK] [])
    (replace html_tag text)))))).

(** [formatText] (lines 623-632). *)
Definition formatText (text : jsstring) : jsstring :=
  match text with
  | [] => []
  | _ =>
    replace (literal [LF] (str "<br>"))
    (replace (delimited [DQUOTE] (str "<strong>" ++ [DQUOTE])
                        (DQUOTE :: str "</strong>"))
    (replace (delimited [BACKTICK] (str "<code>") (str "</code>"))
    (replace (delimited [ASTERISK] (str "<em>") (str "</em>"))
    (replace (delimited [ASTERISK; ASTERISK] (str "<strong>") (str "</strong>"))
       text))))
  end.

(** The clean-up of the generated fragment (lines 554-561). *)
Definition cleanResponse (text : jsstring) : jsstring :=
  trim
    (replace blank_lines
    (replace (list_marker (fun c => (c =? 45) || (c =? 42) || (c =? 43)))
    (replace numbered_marker
    (replace (list_marker (fun c => (c =? 45) || (c =? 42)))
    (replace (literal [ASTERISK] [])
    (replace (literal [ASTERISK; ASTERISK] []) text)))))).

Definition apology : jsstring :=
  str "Sorry, an error occurred. Please try again.".

Section Pipeline.

Variable rt : Runtime.
Local Open Scope io_scope.

(** [speak] (lines 595-611). *)
Definition speak (text : jsstring) : io unit :=
  fun w =>
    if speechSynthesis w && truthy (Str text)
    then effect (utter (cleanText text)) w
    else ret tt w.

(** The body of the [try] from the settling of [fetch] on
    (lines 542-571). *)
Definition try_body (fr : Frame) (settled : Settled) : io unit :=
  match settled with
  | Rejected reason => throw (Error reason)
  | Response status body =>
      if negb (response_ok status) then
        errorData <- eval (response_json body) ;;
        throw (Error (str "An error occurred. Please try again."))
      else
        result <- eval (response_json body) ;;
        found <- eval (has_generated_part rt result) ;;
        aiResponseText <-
          (if found : bool then
             raw <- eval (first_part_text rt result) ;;
             s <- eval (string_receiver rt raw (str "replace")) ;;
             ret (cleanResponse s)
           else ret fallback) ;;
        stamp <- (fun w => (Ok (now w), w)) ;;
        effect (setMessages (fun prev =>
          prev ++ [{| text := Str aiResponseText; sender := ai;
                      error := false; id := stamp + 1 |}])) ;;
        if frame_voiceOutput fr then speak (trim aiResponseText)
        else ret tt
  end.

(** The [catch] block (lines 573-576). *)
Definition catch_block (e : JsError) : io unit :=
  effect (console_error e) ;;
  stamp <- (fun w => (Ok (now w), w)) ;;
  effect (setMessages (fun prev =>
    prev ++ [{| text := Str (str "Sorry, an error occurred. Please try again.");
                sender := ai; error := true; id := stamp + 1 |}])).

(** [handleSendMessage] from the settling of [fetch] to its end. *)
Definition handleSendMessage_resume (fr : Frame) (settled : Settled)
  : World -> World :=
  fun w =>
    snd (try_catch_finally (try_body fr settled) catch_block
           (effect (setIsTyping false)) w).

(** One call of [handleSendMessage] with nothing else happening while
    the request is under way; [later] is the clock at its settling. *)
Definition handleSendMessage (settled : Settled) (later : Z) (w : World)
  : World :=
  match handleSendMessage_begin w with
  | (w1, Some fr) => handleSendMessage_resume fr settled (tick later w1)
  | (w1, None) => w1
  end.

End Pipeline.
End Variant2.

(* ===================================================================== *)
(** ** Concrete worlds and responses *)
(* ===================================================================== *)

(** A runtime to evaluate examples with: the wording of V8 for the
    engine's errors; the conversions are never reached by the examples. *)
Definition v8 : Runtime :=
  {| ToNumber := fun _ => PrimFloat.nan;
     ToString := fun _ => str "[object Object]";
     TypeError_message := fun t =>
       match t with
       | ReadOfNullish Null k =>
           str "Cannot read properties of null (reading '" ++ k ++ str "')"
       | ReadOfNullish _ k =>
           str "Cannot read properties of undefined (reading '" ++ k ++ str "')"
       | NotAFunction _ k => str "aiResponseText." ++ k ++ str " is not a function"
       end |}.

(** The state after the key was entered and [s] typed at time [t]. *)
Definition typed (key s : jsstring) (t : Z) : World :=
  {| messages := []; input := s; isTyping := false; voiceOutput := true;
     apiKey := key; speechSynthesis := true; now := t;
     fetched := []; spoken := []; console := [] |}.

(** [{"candidates":[{"content":{"parts":[part]}}]}] *)
Definition reply_with (part : jsval) : jsval :=
  Obj [(str "candidates",
        Arr [Obj [(str "content", Obj [(str "parts", Arr [part])])]])].

(* ===================================================================== *)
(** ** The vocabulary of the properties *)
(* ===================================================================== *)

(** The first and the last code unit of a string are no white space. *)
Definition starts_clean (s : jsstring) : Prop :=
  match s with
  | [] => True
  | c :: _ => is_white_space c = false
  end.

Fixpoint ends_clean (s : jsstring) : Prop :=
  match s with
  | [] => True
  | [c] => is_white_space c = false
  | _ :: r => ends_clean r
  end.

(** The code unit before the position reached after [k] more units. *)
Fixpoint prev_after (p : option code_unit) (k : nat) (s : jsstring)
  : option code_unit :=
  match k, s with
  | S k', c :: r => prev_after (Some c) k' r
  | _, _ => p
  end.

(** [thinned x y]: [y] is [x] with some code units left out and some white
    space turned into a space.  Every step of [cleanText] after the first
    is of this kind. *)
Inductive thinned : jsstring -> jsstring -> Prop :=
| thinned_nil : thinned [] []
| thinned_drop c x y : thinned x y -> thinned (c :: x) y
| thinned_keep c x y : thinned x y -> thinned (c :: x) (c :: y)
| thinned_space c x y :
    is_white_space c = true -> thinned x y -> thinned (c :: x) (SPACE :: y).

(** No [<] with a [>] somewhere after it: nothing for [/<[^>]*>/] to
    match. *)
Fixpoint tag_free (s : jsstring) : Prop :=
  match s with
  | [] => True
  | c :: r => (c = LT -> ~ In GT r) /\ tag_free r
  end.

(** Every white space is one space, and no two stand together: nothing
    for [/\n/] to match, and [/\s+/] puts back what it takes. *)
Fixpoint spaced (s : jsstring) : Prop :=
  match s with
  | [] => True
  | c :: r => (is_white_space c = true -> c = SPACE /\ starts_clean r) /\ spaced r
  end.

(** What [cleanText] returns is in the form that [cleanText] leaves
    alone. *)
Record spoken_form (y : jsstring) : Prop := {
  spoken_tag_free : tag_free y;
  spoken_no_asterisk : ~ In ASTERISK y;
  spoken_no_backtick : ~ In BACKTICK y;
  spoken_spaced : spaced y;
  spoken_starts_clean : starts_clean y;
  spoken_ends_clean : ends_clean y
}.

Definition is_LF (c : code_unit) : bool := c =? LF.

(** Fewer than three line feeds stand together anywhere in [s]. *)
Fixpoint no_blank_run (s : jsstring) : Prop :=
  match s with
  | [] => True
  | _ :: r => (run_length is_LF s < 3)%nat /\ no_blank_run r
  end.

(** What the second variant stores of a generated fragment. *)
Record stored_form (y : jsstring) : Prop := {
  stored_no_asterisk : ~ In ASTERISK y;
  stored_no_blank_run : forall a b, y <> a ++ [LF; LF; LF] ++ b;
  stored_no_leading_space :
    forall c r, y = c :: r -> is_white_space c = false;
  stored_no_trailing_space :
    forall r c, y = r ++ [c] -> is_white_space c = false
}.

(** The tags that [formatText] writes. *)
Definition defined_tags : list jsstring :=
  [str "<strong>"; str "</strong>"; str "<em>"; str "</em>";
   str "<code>"; str "</code>"; str "<br>"].

(** Every [<] of [s] opens one of the tags of [formatText]. *)
Fixpoint only_defined_tags (s : jsstring) : bool :=
  match s with
  | [] => true
  | c :: r =>
      (negb (c =? LT) || existsb (fun t => starts_with t s) defined_tags)
      && only_defined_tags r
  end.

(** [c] occurs in none of the tags. *)
Definition foreign (c : code_unit) : Prop :=
  forall t, In t defined_tags -> ~ In c t.

(** A submission that passes the guard: the input is not blank and no
    request is pending. *)
Definition accepts (w : World) : Prop :=
  forallb is_white_space (input w) = false /\ isTyping w = false.

Definition userMessage (w : World) : Message :=
  {| text := Str (input w); sender := user; error := false; id := now w |}.

Definition reply_message (t : jsval) (stamp : Z) : Message :=
  {| text := t; sender := ai; error := false; id := stamp + 1 |}.

Definition error_message (t : jsstring) (stamp : Z) : Message :=
  {| text := Str t; sender := ai; error := true; id := stamp + 1 |}.

(** The transcript as the specification words it: the history in order,
    [user] messages under the role "user", assistant messages under the
    role "model", each with the text of its message. *)
Definition transcript (history : list Message) : list Content :=
  map (fun msg =>
         {| role := match sender msg with
                    | user => str "user"
                    | ai => str "model"
                    end;
            part_text := text msg |})
      history.

(** The failures the specification names: the network fails, the status
    is not a success, the body is malformed (it is not JSON, or it is the
    JSON [null] instead of a response object). *)
Inductive turn_fails : Settled -> Prop :=
| network_failure reason : turn_fails (Rejected reason)
| bad_status status body :
    response_ok status = false -> turn_fails (Response status body)
| malformed_body status complaint :
    response_ok status = true ->
    turn_fails (Response status (NotJson complaint))
| null_body status :
    response_ok status = true ->
    turn_fails (Response status (Json Null)).

Definition absent (v : jsval) : Prop := v = Undefined \/ v = Null.

Definition trouble : jsstring := str "Sorry, something went wrong: ".

(** The error that a failing request raises in the first variant: the
    reason of the rejection, the complaint of the parser, the error
    message of the service, or the status. *)
Definition raised_by (settled : Settled) (e : JsError) : Prop :=
  (forall reason, settled = Rejected reason -> e = Error reason) /\
  (forall status complaint,
     settled = Response status (NotJson complaint) -> e = Error complaint) /\
  (forall status fields details m,
     settled = Response status (Json (Obj fields)) ->
     lookup (str "error") fields = Obj details ->
     lookup (str "message") details = Str m -> m <> [] ->
     e = Error m) /\
  (forall status fields details,
     settled = Response status (Json (Obj fields)) ->
     lookup (str "error") fields = Obj details ->
     absent (lookup (str "message") details) ->
     e = Error (str "API call failed with status: " ++ decimal status)).

(** The world in which the request is under way. *)
Definition sending (w : World) : World :=
  fetch {| url := apiUrl (apiKey w);
           contents := chatHistory (messages w ++ [userMessage w]) |}
    (setIsTyping true
       (setInput [] (setMessages (fun _ => messages w ++ [userMessage w]) w))).

(** [{"error":{"message":m}}] *)
Definition error_with (m : jsstring) : jsval :=
  Obj [(str "error", Obj [(str "message", Str m)])].

(** The second of two rapid submissions: "B" typed while the request for
    "A" is under way. *)
Definition second_submission : World :=
  setInput (str "B") (sending (typed (str "key") (str "A") 1)).

(* ===================================================================== *)
(** ** The rest of the component: button, key, logout, microphone *)
(* ===================================================================== *)

(** The [disabled] attribute of the send button (lines 278 and 781):
    [isTyping || !input.trim()]. *)
Definition send_disabled (w : World) : bool :=
  isTyping w || negb (truthy (Str (trim (input w)))).

Definition setApiKey (k : jsstring) (w : World) : World :=
  {| messages := messages w; input := input w; isTyping := isTyping w;
     voiceOutput := voiceOutput w; apiKey := k;
     speechSynthesis := speechSynthesis w; now := now w;
     fetched := fetched w; spoken := spoken w; console := console w |}.

(** [localStorage]: [getItem] gives [null] ([None]) for a key never set;
    only what [getItem] gives is read of it. *)
Definition Storage : Type := list (jsstring * jsstring).

Fixpoint getItem (k : jsstring) (st : Storage) : option jsstring :=
  match st with
  | [] => None
  | (k', v) :: r => if jsstring_eqb k k' then Some v else getItem k r
  end.

Definition removeItem (k : jsstring) (st : Storage) : Storage :=
  filter (fun p => negb (jsstring_eqb k (fst p))) st.

Definition setItem (k v : jsstring) (st : Storage) : Storage :=
  (k, v) :: removeItem k st.

(** The component with the state around the pipeline: the theme, the
    modal of the key and its field, the recording flag, the storage. *)
Record App : Type := {
  world : World;
  theme : jsstring;
  showApiModal : bool;
  tempApiKey : jsstring;
  isRecording : bool;
  localStorage : Storage
}.

Definition with_world (f : World -> World) (a : App) : App :=
  {| world := f (world a); theme := theme a; showApiModal := showApiModal a;
     tempApiKey := tempApiKey a; isRecording := isRecording a;
     localStorage := localStorage a |}.

Definition setIsRecording (b : bool) (a : App) : App :=
  {| world := world a; theme := theme a; showApiModal := showApiModal a;
     tempApiKey := tempApiKey a; isRecording := b;
     localStorage := localStorage a |}.

Definition rugved_api_key : jsstring := str "rugved_api_key".

(** The first effect, run once when the component is mounted
    (lines 24-33 and 428-437). *)
Definition restoreSession (a : App) : App :=
  let savedTheme :=
    match getItem (str "theme") (localStorage a) with
    | Some (c :: r) => c :: r
    | _ => str "dark"
    end in
  match getItem rugved_api_key (localStorage a) with
  | Some (c :: r) =>
      {| world := setApiKey (c :: r) (world a); theme := savedTheme;
         showApiModal := false;
         tempApiKey := tempApiKey a; isRecording := isRecording a;
         localStorage := localStorage a |}
  | _ =>
      {| world := world a; theme := savedTheme;
         showApiModal := showApiModal a;
         tempApiKey := tempApiKey a; isRecording := isRecording a;
         localStorage := localStorage a |}
  end.

(** The page loaded anew: every state hook at its initial value, the
    storage and the surroundings as they are, then the first effect. *)
Definition reload (a : App) : App :=
  restoreSession
    {| world :=
         {| messages := []; input := []; isTyping := false;
            voiceOutput := true; apiKey := [];
            speechSynthesis := speechSynthesis (world a);
            now := now (world a); fetched := fetched (world a);
            spoken := spoken (world a); console := console (world a) |};
       theme := str "dark"; showApiModal := true; tempApiKey := [];
       isRecording := false; localStorage := localStorage a |}.

(** [handleApiKeySubmit] (lines 96-103 and 500-507). *)
Definition handleApiKeySubmit (a : App) : App :=
  match tempApiKey a with
  | [] => a
  | _ :: _ =>
      {| world := setApiKey (tempApiKey a) (world a); theme := theme a;
         showApiModal := false;
         tempApiKey := tempApiKey a; isRecording := isRecording a;
         localStorage := setItem rugved_api_key (tempApiKey a) (localStorage a) |}
  end.

(** [handleLogout] (second variant, lines 509-514). *)
Definition handleLogout (a : App) : App :=
  {| world := setMessages (fun _ => []) (setApiKey [] (world a));
     theme := theme a; showApiModal := true;
     tempApiKey := tempApiKey a; isRecording := isRecording a;
     localStorage := removeItem rugved_api_key (localStorage a) |}.

(** The handlers of the speech recognition that only set state
    (lines 63-67, 72-74 and 467-471, 476-478): [onresult] with the
    transcript of the first alternative of the first result, [onend]. *)
Definition onresult (transcript : jsstring) (a : App) : App :=
  setIsRecording false (with_world (setInput transcript) a).

Definition onend (a : App) : App := setIsRecording false a.

(** [subseq y x]: [y] is [x] with some code units left out. *)
Inductive subseq : jsstring -> jsstring -> Prop :=
| subseq_nil : subseq [] []
| subseq_skip c x y : subseq y x -> subseq y (c :: x)
| subseq_take c x y : subseq y x -> subseq (c :: y) (c :: x).

(** The code units that [formatText] never takes away: all but the
    asterisk, the backtick and the line feed. *)
Definition is_text (c : code_unit) : bool :=
  negb ((c =? ASTERISK) || (c =? BACKTICK) || (c =? LF)).

(** What [formatText] does to a text without asterisks: the rules of
    lines 629-631. *)
Definition formatText_tail (text : jsstring) : jsstring :=
  replace (literal [LF] (str "<br>"))
    (replace (delimited [DQUOTE] (str "<strong>" ++ [DQUOTE])
                        (DQUOTE :: str "</strong>"))
    (replace (delimited [BACKTICK] (str "<code>") (str "</code>")) text)).

(** The world with another key and another log of requests. *)
Definition rekeyed (k : jsstring) (log : list Request) (w : World) : World :=
  {| messages := messages w; input := input w; isTyping := isTyping w;
     voiceOutput := voiceOutput w; apiKey := k;
     speechSynthesis := speechSynthesis w; now := now w;
     fetched := log; spoken := spoken w; console := console w |}.

(** What of the world the user sees and hears, and the log. *)
Definition shown (w : World)
  : list Message * jsstring * bool * list jsstring * list JsError :=
  (messages w, input w, isTyping w, spoken w, console w).

(** The outcome of a statement, in the world with another key and log. *)
Definition carried (k : jsstring) (log : list Request) {A}
           (r : res A * World) : res A * World :=
  (fst r, rekeyed k log (snd r)).

(* ===================================================================== *)
(** ** Facts about [trim] *)
(* ===================================================================== *)

Lemma forallb_trimStart s :
  forallb is_white_space (trimStart s) = forallb is_white_space s.
Proof.
  induction s as [|c r IH]; simpl; [reflexivity|].
  destruct (is_white_space c) eqn:E; simpl; [exact IH|].
  rewrite E. reflexivity.
Qed.

Lemma trimEnd_nil_iff s :
  trimEnd s = [] <-> forallb is_white_space s = true.
Proof.
  induction s as [|c r IH]; simpl; [tauto|].
  destruct (trimEnd r) as [|x r'] eqn:E.
  - destruct (is_white_space c); simpl.
    + split; intros _; [apply IH|]; reflexivity.
    + split; discriminate.
  - split; [discriminate|].
    intros H. apply andb_true_iff in H. destruct H as [_ H].
    apply IH in H. discriminate.
Qed.

Lemma trim_nil_iff s :
  trim s = [] <-> forallb is_white_space s = true.
Proof.
  unfold trim. rewrite trimEnd_nil_iff, forallb_trimStart. tauto.
Qed.

Lemma jsstring_eqb_nil s : jsstring_eqb s [] = true <-> s = [].
Proof. destruct s; simpl; split; congruence. Qed.

Lemma blank_guard s :
  jsstring_eqb (trim s) [] = forallb is_white_space s.
Proof.
  destruct (forallb is_white_space s) eqn:E.
  - apply jsstring_eqb_nil, trim_nil_iff, E.
  - destruct (jsstring_eqb (trim s) []) eqn:F; [|reflexivity].
    apply jsstring_eqb_nil, trim_nil_iff in F. congruence.
Qed.

Lemma trimStart_starts_clean s : starts_clean (trimStart s).
Proof.
  induction s as [|c r IH]; simpl; [exact I|].
  destruct (is_white_space c) eqn:E; [exact IH | exact E].
Qed.

Lemma trimEnd_head s :
  trimEnd s = [] \/ exists c r r', s = c :: r /\ trimEnd s = c :: r'.
Proof.
  destruct s as [|c r]; simpl; [now left|].
  destruct (trimEnd r) as [|x r'].
  - destruct (is_white_space c); [now left|].
    right. now exists c, r, [].
  - right. now exists c, r, (x :: r').
Qed.

Lemma trimEnd_starts_clean s : starts_clean s -> starts_clean (trimEnd s).
Proof.
  intros H. destruct (trimEnd_head s) as [E | (c & r & r' & E1 & E2)].
  - rewrite E. exact I.
  - rewrite E2. subst s. exact H.
Qed.

Lemma trimEnd_ends_clean s : ends_clean (trimEnd s).
Proof.
  induction s as [|c r IH]; simpl; [exact I|].
  destruct (trimEnd r) as [|x r'] eqn:E.
  - destruct (is_white_space c) eqn:F; simpl; [exact I | exact F].
  - exact IH.
Qed.

Lemma trim_clean s : starts_clean (trim s) /\ ends_clean (trim s).
Proof.
  unfold trim. split.
  - apply trimEnd_starts_clean, trimStart_starts_clean.
  - apply trimEnd_ends_clean.
Qed.

Lemma trimStart_id s : starts_clean s -> trimStart s = s.
Proof. destruct s as [|c r]; simpl; [reflexivity|]. now intros ->. Qed.

Lemma trimEnd_id s : ends_clean s -> trimEnd s = s.
Proof.
  induction s as [|c r IH]; [reflexivity|].
  intros H. destruct r as [|x r'].
  - simpl in *. now rewrite H.
  - change (ends_clean (x :: r')) in H. specialize (IH H).
    change (trimEnd (c :: x :: r'))
      with (match trimEnd (x :: r') with
            | [] => if is_white_space c then [] else [c]
            | r0 => c :: r0
            end).
    rewrite IH. reflexivity.
Qed.

Lemma trim_id s : starts_clean s -> ends_clean s -> trim s = s.
Proof.
  intros H1 H2. unfold trim. rewrite (trimStart_id s H1). now apply trimEnd_id.
Qed.

(** The spec's wording of [ends_clean]. *)
Lemma ends_clean_last s p c :
  ends_clean s -> s = p ++ [c] -> is_white_space c = false.
Proof.
  revert s. induction p as [|x p IH]; intros s H E; subst s.
  - exact H.
  - apply (IH (p ++ [c])); [|reflexivity].
    simpl in H. destruct (p ++ [c]) eqn:F; [|exact H].
    destruct p; discriminate.
Qed.

Lemma In_trimStart x s : In x (trimStart s) -> In x s.
Proof.
  induction s as [|c r IH]; simpl; [tauto|].
  destruct (is_white_space c); simpl; tauto.
Qed.

Lemma In_trimEnd x s : In x (trimEnd s) -> In x s.
Proof.
  induction s as [|c r IH]; simpl; [tauto|].
  destruct (trimEnd r) as [|y r'].
  - destruct (is_white_space c); simpl; tauto.
  - intros [H|H]; [now left | right; apply IH, H].
Qed.

Lemma In_trim x s : In x (trim s) -> In x s.
Proof. intros H. apply In_trimStart, In_trimEnd, H. Qed.

(* ===================================================================== *)
(** ** Facts about the scan of [replace] *)
(* ===================================================================== *)

Lemma replace_from_skip m k p s :
  replace_from m k p s = replace_from m 0 (prev_after p k s) (skipn k s).
Proof.
  revert p s. induction k as [|k IH]; intros p [|c r]; simpl; auto.
Qed.

Lemma In_skipn (x : code_unit) n s : In x (skipn n s) -> In x s.
Proof.
  revert s. induction n as [|n IH]; intros [|c r]; simpl; auto.
Qed.

Section ReplaceInduction.

Variable m : matcher.
Variable P : jsstring -> jsstring -> Prop.

Hypothesis P_nil : P [] [].
Hypothesis P_copy :
  forall p c r out, m p (c :: r) = None -> P r out -> P (c :: r) (c :: out).
Hypothesis P_match :
  forall p c r rep n out,
    m p (c :: r) = Some (rep, n) -> P (skipn n r) out ->
    P (c :: r) (rep ++ out).

(** Each step of the scan either copies one code unit or replaces one
    match; a relation between subject and result closed under the two
    holds of every scan. *)
Lemma replace_from_ind s p : P s (replace_from m 0 p s).
Proof.
  assert (G : forall n s, (length s <= n)%nat ->
                          forall p, P s (replace_from m 0 p s)).
  { clear s p. induction n as [|n IH]; intros [|c r] L p; simpl in *;
      try exact P_nil; try lia.
    destruct (m p (c :: r)) as [[rep k]|] eqn:E.
    - rewrite replace_from_skip. eapply P_match; [exact E|].
      apply IH. rewrite length_skipn. lia.
    - eapply P_copy; [exact E|]. apply IH. lia. }
  apply (G (length s)). lia.
Qed.

End ReplaceInduction.

(** A scan invents no code unit: what the result holds is of the subject
    or of a replacement. *)
Lemma In_replace_from m (Q : code_unit -> Prop) :
  (forall p s rep n x, m p s = Some (rep, n) -> In x rep -> Q x) ->
  forall s p x, In x (replace_from m 0 p s) -> In x s \/ Q x.
Proof.
  intros HQ s p.
  apply replace_from_ind with (P := fun s out => forall x, In x out -> In x s \/ Q x).
  - simpl. tauto.
  - intros p0 c r out _ IH x [<-|H]; [left; now left|].
    destruct (IH x H); [left; now right | now right].
  - intros p0 c r rep n out E IH x H. apply in_app_or in H. destruct H as [H|H].
    + right. eapply HQ; eassumption.
    + destruct (IH x H) as [H'|H']; [|now right].
      apply In_skipn in H'. left. now right.
Qed.

(** A matcher that fires on none of the code units of [s] leaves it. *)
Lemma replace_from_id m s :
  (forall p c r, In c s -> m p (c :: r) = None) ->
  forall p, replace_from m 0 p s = s.
Proof.
  induction s as [|c r IH]; intros H p; simpl; [reflexivity|].
  rewrite (H p c r (or_introl eq_refl)). f_equal.
  apply IH. intros p0 c0 r0 H0. apply H. now right.
Qed.

Lemma literal_fires c0 l rep p c r o :
  literal (c0 :: l) rep p (c :: r) = Some o -> c = c0 /\ o = (rep, length l).
Proof.
  unfold literal. simpl. destruct (N.eqb_spec c0 c) as [->|]; simpl; [|discriminate].
  destruct (starts_with l r); [|discriminate]. intros [= <-]. now split.
Qed.

Lemma literal_id c0 l rep s :
  ~ In c0 s -> replace (literal (c0 :: l) rep) s = s.
Proof.
  intros H. apply replace_from_id. intros p c r Hc.
  destruct (literal (c0 :: l) rep p (c :: r)) eqn:E; [|reflexivity].
  apply literal_fires in E. destruct E as [-> _]. contradiction.
Qed.

(** Removing a one-unit literal leaves none of it behind. *)
Lemma literal_removed c0 s : ~ In c0 (replace (literal [c0] []) s).
Proof.
  unfold replace.
  apply replace_from_ind with (P := fun _ out => ~ In c0 out).
  - simpl. tauto.
  - intros p c r out E IH [H|H]; [|tauto]. subst c.
    unfold literal in E. simpl in E. rewrite N.eqb_refl in E. discriminate.
  - intros p c r rep n out E IH. apply literal_fires in E.
    destruct E as [_ [= -> _]]. exact IH.
Qed.

(** ** Greedy runs *)

Lemma run_length_stop q s :
  match skipn (run_length q s) s with
  | [] => True
  | c :: _ => q c = false
  end.
Proof.
  induction s as [|c r IH]; simpl; [exact I|].
  destruct (q c) eqn:E; simpl; [exact IH | exact E].
Qed.

Lemma run_length_all q s :
  skipn (run_length q s) s = [] -> forall x, In x s -> q x = true.
Proof.
  induction s as [|c r IH]; simpl; [tauto|].
  destruct (q c) eqn:E; simpl; [|discriminate].
  intros H x [<-|Hx]; [exact E | now apply IH].
Qed.

Lemma run_length_whole q s :
  (forall x, In x s -> q x = true) -> skipn (run_length q s) s = [].
Proof.
  induction s as [|c r IH]; simpl; [reflexivity|].
  intros H. rewrite (H c (or_introl eq_refl)). simpl.
  apply IH. intros x Hx. apply H. now right.
Qed.

Lemma run_length_zero s : starts_clean s -> run_length is_white_space s = O.
Proof. destruct s as [|c r]; simpl; [reflexivity|]. now intros ->. Qed.

(* ===================================================================== *)
(** ** The speech clean-up *)
(* ===================================================================== *)

#[local] Hint Constructors thinned : core.

Lemma thinned_refl s : thinned s s.
Proof. induction s; auto. Qed.

Lemma thinned_trans x y z : thinned x y -> thinned y z -> thinned x z.
Proof.
  intros H. revert z. induction H; intros z Hz; auto.
  - inversion Hz; subst; auto.
  - inversion Hz; subst; auto.
Qed.

Lemma thinned_skipn n x y : thinned (skipn n x) y -> thinned x y.
Proof.
  revert x. induction n as [|n IH]; intros [|c x]; simpl; auto.
Qed.

Lemma thinned_In x y c : thinned x y -> In c y -> In c x \/ c = SPACE.
Proof.
  induction 1; simpl; intros Hc.
  - tauto.
  - destruct (IHthinned Hc); auto.
  - destruct Hc as [<-|Hc]; auto. destruct (IHthinned Hc); auto.
  - destruct Hc as [<-|Hc]; auto. destruct (IHthinned Hc); auto.
Qed.

Lemma thinned_absent x y c : thinned x y -> c <> SPACE -> ~ In c x -> ~ In c y.
Proof.
  intros H Hc Hx Hy. destruct (thinned_In _ _ _ H Hy); tauto.
Qed.

Lemma replace_thinned m :
  (forall p c r rep n, m p (c :: r) = Some (rep, n) ->
     rep = [] \/ (rep = [SPACE] /\ is_white_space c = true)) ->
  forall s, thinned s (replace m s).
Proof.
  intros Hm s. unfold replace. apply replace_from_ind; auto.
  intros p c r rep n out E H. apply thinned_skipn in H.
  destruct (Hm _ _ _ _ _ E) as [->|[-> W]]; simpl; auto.
Qed.

Lemma literal_thinned c0 l s : thinned s (replace (literal (c0 :: l) []) s).
Proof.
  apply replace_thinned. intros p c r rep n E.
  apply literal_fires in E. destruct E as [_ [= <- _]]. now left.
Qed.

Lemma newline_thinned s : thinned s (replace (literal [LF] [SPACE]) s).
Proof.
  apply replace_thinned. intros p c r rep n E.
  apply literal_fires in E. destruct E as [-> [= <- _]]. right. now split.
Qed.

Lemma white_space_run_fires p c r rep n :
  white_space_run p (c :: r) = Some (rep, n) ->
  rep = [SPACE] /\ is_white_space c = true /\ run_length is_white_space r = n.
Proof.
  unfold white_space_run. simpl. destruct (is_white_space c); [|discriminate].
  intros [= <- <-]. auto.
Qed.

Lemma white_space_run_thinned s : thinned s (replace white_space_run s).
Proof.
  apply replace_thinned. intros p c r rep n E.
  apply white_space_run_fires in E. destruct E as (-> & W & _). right. now split.
Qed.

Lemma trimStart_thinned s : thinned s (trimStart s).
Proof.
  induction s as [|c r IH]; simpl; auto.
  destruct (is_white_space c); auto using thinned_refl.
Qed.

Lemma trimEnd_thinned s : thinned s (trimEnd s).
Proof.
  induction s as [|c r IH]; simpl; auto.
  destruct (trimEnd r); [destruct (is_white_space c)|]; auto.
Qed.

Lemma trim_thinned s : thinned s (trim s).
Proof.
  unfold trim. eapply thinned_trans; [apply trimStart_thinned | apply trimEnd_thinned].
Qed.

Lemma html_tag_fires p c r rep n :
  html_tag p (c :: r) = Some (rep, n) -> rep = [].
Proof.
  unfold html_tag. destruct (c =? LT); [|discriminate].
  destruct (skipn _ r); [discriminate|]. now intros [= <- _].
Qed.

Lemma html_tag_silent p r :
  html_tag p (LT :: r) = None <-> ~ In GT r.
Proof.
  unfold html_tag. simpl.
  pose proof (run_length_stop (fun x => negb (x =? GT)) r) as S.
  destruct (skipn _ r) as [|x r'] eqn:E.
  - split; [|reflexivity]. intros _ H.
    apply (run_length_all _ _ E) in H. rewrite N.eqb_refl in H. discriminate.
  - split; [discriminate|]. intros H. exfalso. apply H.
    apply negb_false_iff, N.eqb_eq in S. subst x.
    eapply In_skipn. rewrite E. now left.
Qed.

Lemma html_tag_tag_free s : tag_free (replace html_tag s).
Proof.
  unfold replace.
  assert (G : tag_free (replace_from html_tag 0 None s) /\
              forall x, In x (replace_from html_tag 0 None s) -> In x s);
    [|apply G].
  apply replace_from_ind with
    (P := fun s out => tag_free out /\ forall x, In x out -> In x s).
  - simpl. tauto.
  - intros p c r out E [T I]. split.
    + simpl. split; [|exact T]. intros -> H. apply I in H.
      apply html_tag_silent in E. contradiction.
    + intros x [<-|H]; [now left | right; now apply I].
  - intros p c r rep n out E [T I]. apply html_tag_fires in E. subst rep.
    simpl. split; [exact T|]. intros x H. right. eapply In_skipn, I, H.
Qed.

Lemma html_tag_id s : tag_free s -> replace html_tag s = s.
Proof.
  unfold replace. generalize (@None code_unit).
  induction s as [|c r IH]; intros p HT; cbn [replace_from]; [reflexivity|].
  destruct HT as [H T].
  assert (E : html_tag p (c :: r) = None).
  { destruct (N.eqb_spec c LT) as [->|N].
    - apply html_tag_silent. now apply H.
    - unfold html_tag. apply N.eqb_neq in N. now rewrite N. }
  rewrite E. f_equal. now apply IH.
Qed.

Lemma thinned_tag_free x y : thinned x y -> tag_free x -> tag_free y.
Proof.
  induction 1; simpl; intros T; auto.
  - tauto.
  - destruct T as [H1 T]. split; [|auto].
    intros E G. destruct (thinned_In _ _ _ H G) as [G'|G']; [now apply H1|discriminate].
  - split; [discriminate|]. tauto.
Qed.

Lemma white_space_run_spaced s : spaced (replace white_space_run s).
Proof.
  unfold replace.
  assert (G : spaced (replace_from white_space_run 0 None s) /\
              (starts_clean s ->
               starts_clean (replace_from white_space_run 0 None s)));
    [|apply G].
  apply replace_from_ind with
    (P := fun s out => spaced out /\ (starts_clean s -> starts_clean out)).
  - simpl. tauto.
  - intros p c r out E [S C].
    assert (W : is_white_space c = false).
    { unfold white_space_run in E. simpl in E.
      destruct (is_white_space c); [discriminate | reflexivity]. }
    simpl. rewrite W. repeat split; auto; discriminate.
  - intros p c r rep n out E [S C].
    apply white_space_run_fires in E. destruct E as (-> & W & <-).
    assert (K : starts_clean out).
    { apply C. pose proof (run_length_stop is_white_space r) as T.
      destruct (skipn _ r); simpl; auto. }
    simpl. rewrite W. repeat split; auto; discriminate.
Qed.

Lemma white_space_run_id s : spaced s -> replace white_space_run s = s.
Proof.
  unfold replace. generalize (@None code_unit).
  induction s as [|c r IH]; intros p HS; cbn [replace_from]; [reflexivity|].
  destruct HS as [H S].
  unfold white_space_run at 1. cbn [run_length].
  destruct (is_white_space c) eqn:W.
  - destruct (H eq_refl) as [-> C]. rewrite (run_length_zero r C).
    simpl. f_equal. now apply IH.
  - f_equal. now apply IH.
Qed.

Lemma spaced_In s x : spaced s -> In x s -> is_white_space x = true -> x = SPACE.
Proof.
  induction s as [|c r IH]; simpl; [tauto|].
  intros [H S] [<-|Hx] W; [now apply H | now apply IH].
Qed.

Lemma trimStart_spaced s : spaced s -> spaced (trimStart s).
Proof.
  induction s as [|c r IH]; [tauto|].
  intros HS. simpl. destruct (is_white_space c) eqn:W; [apply IH, HS | exact HS].
Qed.

Lemma trimEnd_spaced s : spaced s -> spaced (trimEnd s).
Proof.
  induction s as [|c r IH]; [tauto|].
  intros [H S]. specialize (IH S). simpl.
  destruct (trimEnd_head r) as [E | (x & r0 & r' & E1 & E2)].
  - rewrite E. destruct (is_white_space c) eqn:W; simpl; [exact I|].
    rewrite W. split; [discriminate | exact I].
  - rewrite E2 in *. subst r. simpl. split; [|exact IH].
    intros W. destruct (H W) as [E C]. now split.
Qed.

Lemma trim_spaced s : spaced s -> spaced (trim s).
Proof. intros H. apply trimEnd_spaced, trimStart_spaced, H. Qed.

Lemma cleanText_spoken_form x : spoken_form (Variant2.cleanText x).
Proof.
  unfold Variant2.cleanText.
  set (x1 := replace html_tag x).
  set (x2 := replace (literal [ASTERISK; ASTERISK] []) x1).
  set (x3 := replace (literal [ASTERISK] []) x2).
  set (x4 := replace (literal [BACKTICK] []) x3).
  set (x5 := replace (literal [LF] [SPACE]) x4).
  set (x6 := replace white_space_run x5).
  assert (T12 : thinned x1 x2) by apply literal_thinned.
  assert (T23 : thinned x2 x3) by apply literal_thinned.
  assert (T34 : thinned x3 x4) by apply literal_thinned.
  assert (T45 : thinned x4 x5) by apply newline_thinned.
  assert (T56 : thinned x5 x6) by apply white_space_run_thinned.
  assert (T67 : thinned x6 (trim x6)) by apply trim_thinned.
  assert (T37 : thinned x3 (trim x6)) by eauto using thinned_trans.
  assert (T47 : thinned x4 (trim x6)) by eauto using thinned_trans.
  assert (T17 : thinned x1 (trim x6)) by eauto using thinned_trans.
  split.
  - apply (thinned_tag_free _ _ T17), html_tag_tag_free.
  - apply (thinned_absent _ _ _ T37); [discriminate | apply literal_removed].
  - apply (thinned_absent _ _ _ T47); [discriminate | apply literal_removed].
  - apply trim_spaced, white_space_run_spaced.
  - apply trim_clean.
  - apply trim_clean.
Qed.

Lemma cleanText_fixes_spoken_form y : spoken_form y -> Variant2.cleanText y = y.
Proof.
  intros [T A B S C1 C2]. unfold Variant2.cleanText.
  rewrite (html_tag_id y T).
  rewrite (literal_id _ _ _ y A), (literal_id _ _ _ y A), (literal_id _ _ _ y B).
  rewrite literal_id.
  - rewrite (white_space_run_id y S). now apply trim_id.
  - intros H. apply (spaced_In _ _ S) in H; [discriminate | reflexivity].
Qed.

(** C6.  The speech-safe transform is idempotent: cleaning a cleaned text
    again changes nothing, [cleanText (cleanText x) = cleanText x] for
    every string [x]. *)
Theorem cleanText_idempotent (x : jsstring) :
  Variant2.cleanText (Variant2.cleanText x) = Variant2.cleanText x.
Proof.
  apply cleanText_fixes_spoken_form, cleanText_spoken_form.
Qed.

(* ===================================================================== *)
(** ** The clean-up of the generated fragment *)
(* ===================================================================== *)

Lemma no_blank_run_spec s :
  no_blank_run s -> forall a b, s <> a ++ [LF; LF; LF] ++ b.
Proof.
  intros H a. revert s H. induction a as [|x a IH]; intros s H b E; subst s.
  - simpl in H. destruct H as [H _]. lia.
  - simpl in H. destruct H as [_ H]. now apply (IH _ H b).
Qed.

Lemma blank_lines_fires p s rep n :
  blank_lines p s = Some (rep, n) ->
  rep = [LF; LF] /\ (3 <= run_length is_LF s)%nat /\ n = pred (run_length is_LF s).
Proof.
  unfold blank_lines. fold is_LF.
  destruct (Nat.leb_spec 3 (run_length is_LF s)); [|discriminate].
  intros [= <- <-]. auto.
Qed.

Lemma blank_lines_silent p s :
  blank_lines p s = None -> (run_length is_LF s < 3)%nat.
Proof.
  unfold blank_lines. fold is_LF.
  destruct (Nat.leb_spec 3 (run_length is_LF s)); [discriminate | auto].
Qed.

Lemma run_length_after q s :
  run_length q (skipn (run_length q s) s) = O.
Proof.
  pose proof (run_length_stop q s) as H.
  destruct (skipn _ s); simpl; [reflexivity | now rewrite H].
Qed.

Lemma blank_lines_no_blank_run s : no_blank_run (replace blank_lines s).
Proof.
  unfold replace.
  assert (G : no_blank_run (replace_from blank_lines 0 None s) /\
              (run_length is_LF (replace_from blank_lines 0 None s)
               <= run_length is_LF s)%nat); [|apply G].
  apply replace_from_ind with
    (P := fun s out => no_blank_run out /\
                       (run_length is_LF out <= run_length is_LF s)%nat).
  - simpl. split; [exact I | lia].
  - intros p c r out E [H L]. apply blank_lines_silent in E.
    cbn [no_blank_run]. cbn [run_length] in *.
    destruct (is_LF c); repeat split; auto; lia.
  - intros p c r rep n out E [H L]. apply blank_lines_fires in E.
    destruct E as (-> & K & ->). cbn [run_length] in *.
    destruct (is_LF c); [|lia]. cbn [pred] in L.
    rewrite run_length_after in L.
    change ([LF; LF] ++ out) with (LF :: LF :: out).
    cbn [no_blank_run run_length]. change (is_LF LF) with true. cbv iota.
    repeat split; auto; lia.
Qed.

Lemma trimStart_no_blank_run s : no_blank_run s -> no_blank_run (trimStart s).
Proof.
  induction s as [|c r IH]; [tauto|].
  intros H. simpl. destruct (is_white_space c); [apply IH, H | exact H].
Qed.

Lemma trimEnd_no_blank_run s :
  no_blank_run s ->
  no_blank_run (trimEnd s) /\
  (run_length is_LF (trimEnd s) <= run_length is_LF s)%nat.
Proof.
  induction s as [|c r IH]; [simpl; auto|].
  intros [L H]. destruct (IH H) as [H' L']. clear IH.
  cbn [trimEnd]. cbn [run_length] in L |- *.
  destruct (trimEnd r) as [|x r'] eqn:E.
  - destruct (is_white_space c); [simpl; split; [exact I | lia]|].
    cbn [no_blank_run run_length]. destruct (is_LF c); repeat split; auto; lia.
  - change (no_blank_run (c :: x :: r'))
      with ((run_length is_LF (c :: x :: r') < 3)%nat /\ no_blank_run (x :: r')).
    split; [split; [|exact H'] |]; cbn [run_length] in *;
      destruct (is_LF c); destruct (is_LF x); lia.
Qed.

Lemma trim_no_blank_run s : no_blank_run s -> no_blank_run (trim s).
Proof.
  intros H. apply trimEnd_no_blank_run, trimStart_no_blank_run, H.
Qed.

Lemma list_marker_fires marks p s rep n :
  list_marker marks p s = Some (rep, n) -> rep = [].
Proof.
  unfold list_marker. destruct (at_line_start p); [|discriminate].
  destruct (skipn _ s) as [|c r]; [discriminate|].
  destruct (marks c); [|discriminate]. now intros [= <- _].
Qed.

Lemma numbered_marker_fires p s rep n :
  numbered_marker p s = Some (rep, n) -> rep = [].
Proof.
  unfold numbered_marker. destruct (at_line_start p); [|discriminate].
  destruct (run_length is_digit _); [discriminate|].
  destruct (skipn _ _) as [|c r]; [discriminate|].
  destruct (c =? 46); [|discriminate]. now intros [= <- _].
Qed.

(** A scan whose replacements are empty only leaves code units out. *)
Lemma In_replace_erasing m :
  (forall p s rep n, m p s = Some (rep, n) -> rep = []) ->
  forall s x, In x (replace m s) -> In x s.
Proof.
  intros Hm s x H. unfold replace in H.
  apply In_replace_from with (Q := fun _ => False) in H; [tauto|].
  intros p s0 rep n y E. apply Hm in E. subst rep. simpl. tauto.
Qed.

Lemma cleanResponse_no_asterisk t : ~ In ASTERISK (Variant2.cleanResponse t).
Proof.
  unfold Variant2.cleanResponse. intros H.
  apply In_trim in H. unfold replace at 1 in H.
  apply In_replace_from with (Q := fun x => x = LF) in H.
  - destruct H as [H|H]; [|discriminate].
    apply In_replace_erasing in H; [|apply list_marker_fires].
    apply In_replace_erasing in H; [|apply numbered_marker_fires].
    apply In_replace_erasing in H; [|apply list_marker_fires].
    now apply literal_removed in H.
  - intros p s rep n x E Hx. apply blank_lines_fires in E.
    destruct E as (-> & _). simpl in Hx. intuition congruence.
Qed.

Lemma trimmed_stored_form s :
  ~ In ASTERISK s -> no_blank_run s -> stored_form (trim s).
Proof.
  intros A B. destruct (trim_clean s) as [C1 C2]. split.
  - intros H. apply A, In_trim, H.
  - apply no_blank_run_spec, trim_no_blank_run, B.
  - intros c r E. rewrite E in C1. exact C1.
  - intros r c E. exact (ends_clean_last _ _ _ C2 E).
Qed.

Lemma cleanResponse_stored_form t : stored_form (Variant2.cleanResponse t).
Proof.
  pose proof (cleanResponse_no_asterisk t) as A.
  destruct (trim_clean
    (replace blank_lines
    (replace (list_marker (fun c => (c =? 45) || (c =? 42) || (c =? 43)))
    (replace numbered_marker
    (replace (list_marker (fun c => (c =? 45) || (c =? 42)))
    (replace (literal [ASTERISK] [])
    (replace (literal [ASTERISK; ASTERISK] []) t))))))) as [C1 C2].
  split.
  - exact A.
  - apply no_blank_run_spec. unfold Variant2.cleanResponse.
    apply trim_no_blank_run, blank_lines_no_blank_run.
  - intros c r E. unfold Variant2.cleanResponse in E. rewrite E in C1. exact C1.
  - intros r c E. exact (ends_clean_last _ _ _ C2 E).
Qed.

Lemma fallback_stored_form : stored_form fallback.
Proof.
  replace fallback with (trim fallback) by reflexivity.
  apply trimmed_stored_form.
  - vm_compute. intuition discriminate.
  - vm_compute. repeat split; lia.
Qed.

(* ===================================================================== *)
(** ** The display transform *)
(* ===================================================================== *)

Lemma starts_with_app t x y :
  starts_with t x = true -> starts_with t (x ++ y) = true.
Proof.
  revert x. induction t as [|a t IH]; intros [|b x]; simpl; auto; [discriminate|].
  intros H. apply andb_true_iff in H. destruct H as [H1 H2].
  rewrite H1. now apply IH.
Qed.

Lemma starts_with_cut t x c y :
  ~ In c t -> starts_with t (x ++ c :: y) = true -> starts_with t x = true.
Proof.
  revert x. induction t as [|a t IH]; intros x N H; [reflexivity|].
  simpl in N. destruct x as [|b x]; simpl in *.
  - apply andb_true_iff in H. destruct H as [H _].
    apply N.eqb_eq in H. subst. tauto.
  - apply andb_true_iff in H. destruct H as [H1 H2].
    rewrite H1. apply IH; tauto.
Qed.

Lemma starts_with_split d s :
  starts_with d s = true -> s = d ++ skipn (length d) s.
Proof.
  revert s. induction d as [|a d IH]; intros [|b s]; simpl; auto; [discriminate|].
  intros H. apply andb_true_iff in H. destruct H as [H1 H2].
  apply N.eqb_eq in H1. subst b. f_equal. now apply IH.
Qed.

Lemma existsb_starts_with_app x y :
  existsb (fun t => starts_with t x) defined_tags = true ->
  existsb (fun t => starts_with t (x ++ y)) defined_tags = true.
Proof.
  intros H. apply existsb_exists in H. destruct H as (t & T & H).
  apply existsb_exists. exists t. split; [exact T | now apply starts_with_app].
Qed.

Lemma only_defined_tags_app a b :
  only_defined_tags a = true -> only_defined_tags b = true ->
  only_defined_tags (a ++ b) = true.
Proof.
  intros A B. induction a as [|c a IH]; [exact B|].
  cbn [only_defined_tags] in A. apply andb_true_iff in A. destruct A as [A1 A2].
  change ((c :: a) ++ b) with (c :: (a ++ b)). cbn [only_defined_tags].
  rewrite (IH A2), andb_true_r.
  apply orb_true_iff in A1. apply orb_true_iff. destruct A1 as [A1|A1]; [now left|].
  right. exact (existsb_starts_with_app (c :: a) b A1).
Qed.

Lemma only_defined_tags_skipn n s :
  only_defined_tags s = true -> only_defined_tags (skipn n s) = true.
Proof.
  revert s. induction n as [|n IH]; intros [|c r]; simpl; auto.
  intros H. apply andb_true_iff in H. now apply IH.
Qed.

Lemma only_defined_tags_suffix a b :
  only_defined_tags (a ++ b) = true -> only_defined_tags b = true.
Proof.
  intros H. apply (only_defined_tags_skipn (length a)) in H.
  now rewrite skipn_app, skipn_all, Nat.sub_diag in H.
Qed.

Lemma foreign_check c :
  forallb (fun t => negb (existsb (N.eqb c) t)) defined_tags = true -> foreign c.
Proof.
  intros H t T I. rewrite forallb_forall in H. specialize (H t T).
  apply negb_true_iff in H.
  assert (K : existsb (N.eqb c) t = true); [|congruence].
  apply existsb_exists. exists c. split; [exact I | apply N.eqb_refl].
Qed.

Lemma only_defined_tags_cut x c y :
  foreign c ->
  only_defined_tags (x ++ c :: y) = true -> only_defined_tags x = true.
Proof.
  intros F. induction x as [|b x IH]; [reflexivity|].
  change ((b :: x) ++ c :: y) with (b :: (x ++ c :: y)).
  cbn [only_defined_tags]. intros H.
  apply andb_true_iff in H. destruct H as [H1 H2].
  rewrite (IH H2), andb_true_r.
  apply orb_true_iff in H1. apply orb_true_iff. destruct H1 as [H1|H1]; [now left|].
  right. apply existsb_exists in H1. destruct H1 as (t & T & H1).
  apply existsb_exists. exists t. split; [exact T|].
  apply (starts_with_cut t (b :: x) c y); [now apply F | exact H1].
Qed.

Lemma only_defined_tags_plain s :
  ~ In LT s -> only_defined_tags s = true.
Proof.
  induction s as [|c r IH]; [reflexivity|].
  intros H. cbn [only_defined_tags]. rewrite IH; [|intros K; apply H; now right].
  destruct (N.eqb_spec c LT) as [->|]; [|reflexivity].
  exfalso. apply H. now left.
Qed.

(** A substitution that fires on a code unit foreign to the tags and
    writes whole tags keeps the tags whole. *)
Lemma replace_only_defined_tags m c0 :
  foreign c0 ->
  (forall p c r rep n,
     m p (c :: r) = Some (rep, n) -> only_defined_tags (c :: r) = true ->
     c = c0 /\ forall out, only_defined_tags out = true ->
                           only_defined_tags (rep ++ out) = true) ->
  forall s, only_defined_tags s = true -> only_defined_tags (replace m s) = true.
Proof.
  intros F Hm s. unfold replace.
  assert (G : only_defined_tags s = true ->
              only_defined_tags (replace_from m 0 None s) = true /\
              forall t, ~ In c0 t -> starts_with t s = true ->
                        starts_with t (replace_from m 0 None s) = true);
    [|intros H; now apply G].
  apply replace_from_ind with
    (P := fun s out =>
            only_defined_tags s = true ->
            only_defined_tags out = true /\
            forall t, ~ In c0 t -> starts_with t s = true ->
                      starts_with t out = true).
  - auto.
  - intros p c r out E IH H. cbn [only_defined_tags] in H.
    apply andb_true_iff in H. destruct H as [H1 H2].
    destruct (IH H2) as [O K]. clear IH.
    assert (K' : forall t, ~ In c0 t -> starts_with t (c :: r) = true ->
                           starts_with t (c :: out) = true).
    { intros [|a t] N S; [reflexivity|]. simpl in *.
      apply andb_true_iff in S. destruct S as [S1 S2].
      rewrite S1. apply K; tauto. }
    split; [|exact K'].
    cbn [only_defined_tags]. rewrite O, andb_true_r.
    apply orb_true_iff in H1. apply orb_true_iff. destruct H1 as [H1|H1]; [now left|].
    right. apply existsb_exists in H1. destruct H1 as (t & T & H1).
    apply existsb_exists. exists t. split; [exact T|].
    apply K'; [now apply F | exact H1].
  - intros p c r rep n out E IH H.
    destruct (Hm _ _ _ _ _ E H) as [-> R].
    cbn [only_defined_tags] in H. apply andb_true_iff in H. destruct H as [_ H].
    destruct (IH (only_defined_tags_skipn n r H)) as [O _]. split; [now apply R|].
    intros [|a t] N S; [reflexivity|]. simpl in N, S.
    apply andb_true_iff in S. destruct S as [S _].
    apply N.eqb_eq in S. subst a. tauto.
Qed.

Lemma lazy_until_split d s cap :
  lazy_until d s = Some cap -> exists rest, s = cap ++ d ++ rest.
Proof.
  revert cap. induction s as [|c r IH]; intros cap.
  - simpl. destruct (starts_with d []) eqn:S; [|discriminate].
    intros [= <-]. exists []. destruct d; [reflexivity | discriminate].
  - cbn [lazy_until]. destruct (starts_with d (c :: r)) eqn:S.
    + intros [= <-]. exists (skipn (length d) (c :: r)).
      now apply starts_with_split.
    + destruct (is_line_terminator c); [discriminate|].
      destruct (lazy_until d r) as [cap'|]; [|discriminate].
      intros [= <-]. destruct (IH cap' eq_refl) as [rest ->].
      now exists rest.
Qed.

Lemma delimited_fires c0 d before after p c r rep n :
  delimited (c0 :: d) before after p (c :: r) = Some (rep, n) ->
  c = c0 /\ exists cap rest,
    rep = before ++ cap ++ after /\ c :: r = (c0 :: d) ++ cap ++ (c0 :: d) ++ rest.
Proof.
  unfold delimited. destruct (starts_with (c0 :: d) (c :: r)) eqn:S; [|discriminate].
  destruct (lazy_until _ _) as [cap|] eqn:L; [|discriminate].
  intros [= <- _]. apply lazy_until_split in L. destruct L as [rest L].
  apply starts_with_split in S. rewrite L in S.
  split; [now injection S | now exists cap, rest].
Qed.

Lemma delimited_only_defined_tags c0 d before after s :
  foreign c0 ->
  only_defined_tags before = true -> only_defined_tags after = true ->
  only_defined_tags s = true ->
  only_defined_tags (replace (delimited (c0 :: d) before after) s) = true.
Proof.
  intros F B A. apply replace_only_defined_tags with (c0 := c0); [exact F|].
  intros p c r rep n E H. apply delimited_fires in E.
  destruct E as (-> & cap & rest & -> & E). split; [reflexivity|].
  intros out O. rewrite E in H.
  apply only_defined_tags_suffix in H.
  change ((c0 :: d) ++ rest) with (c0 :: (d ++ rest)) in H.
  apply (only_defined_tags_cut _ _ _ F) in H.
  rewrite <- !app_assoc.
  now repeat apply only_defined_tags_app.
Qed.

Lemma line_break_only_defined_tags s :
  only_defined_tags s = true ->
  only_defined_tags (replace (literal [LF] (str "<br>")) s) = true.
Proof.
  apply replace_only_defined_tags with (c0 := LF).
  - now apply foreign_check.
  - intros p c r rep n E _. apply literal_fires in E.
    destruct E as [-> [= -> _]]. split; [reflexivity|].
    intros out O. now apply only_defined_tags_app.
Qed.

Lemma delimited_id c0 d before after s :
  ~ In c0 s -> replace (delimited (c0 :: d) before after) s = s.
Proof.
  intros H. apply replace_from_id. intros p c r Hc.
  destruct (delimited (c0 :: d) before after p (c :: r)) as [[rep n]|] eqn:E;
    [|reflexivity].
  apply delimited_fires in E. destruct E as [-> _]. contradiction.
Qed.

Lemma formatText_verbatim s :
  ~ In ASTERISK s -> ~ In BACKTICK s -> ~ In DQUOTE s -> ~ In LF s ->
  Variant2.formatText s = s.
Proof.
  intros A B Q L. unfold Variant2.formatText. destruct s as [|c r]; [reflexivity|].
  rewrite (delimited_id _ _ _ _ _ A), (delimited_id _ _ _ _ _ A).
  rewrite (delimited_id _ _ _ _ _ B), (delimited_id _ _ _ _ _ Q).
  now apply literal_id.
Qed.

(* ===================================================================== *)
(** ** The send pipeline *)
(* ===================================================================== *)

(** *** The guard and the request *)

Lemma handleSendMessage_begin_refused w :
  forallb is_white_space (input w) = true \/ isTyping w = true ->
  handleSendMessage_begin w = (w, None).
Proof.
  intros H. unfold handleSendMessage_begin. rewrite blank_guard.
  destruct H as [-> | ->]; [reflexivity | now rewrite orb_true_r].
Qed.

Lemma handleSendMessage_begin_accepted w :
  accepts w ->
  handleSendMessage_begin w =
  (fetch {| url := apiUrl (apiKey w);
            contents := chatHistory (messages w ++ [userMessage w]) |}
     (setIsTyping true
        (setInput [] (setMessages (fun _ => messages w ++ [userMessage w]) w))),
   Some {| frame_voiceOutput := voiceOutput w |}).
Proof.
  intros [B T]. unfold handleSendMessage_begin. rewrite blank_guard, B, T.
  reflexivity.
Qed.

Lemma chatHistory_transcript history : chatHistory history = transcript history.
Proof.
  unfold chatHistory, transcript. apply map_ext.
  intros [t [|] e i]; reflexivity.
Qed.

(** *** [try], [catch], [finally] *)

Lemma finally_resets body handler w :
  isTyping (snd (try_catch_finally body handler (effect (setIsTyping false)) w))
  = false.
Proof.
  unfold try_catch_finally.
  destruct (body w) as [[[]|e] w1]; [reflexivity|].
  destruct (handler e w1) as [[[]|e'] w2]; reflexivity.
Qed.

Lemma try_returns body handler final w w1 :
  body w = (Ok tt, w1) ->
  try_catch_finally body handler final w = final w1.
Proof. unfold try_catch_finally. now intros ->. Qed.

Lemma try_throws body handler final w e w1 w2 :
  body w = (Throw e, w1) -> handler e w1 = (Ok tt, w2) ->
  try_catch_finally body handler final w = final w2.
Proof. unfold try_catch_finally. now intros -> ->. Qed.

(** [speak] never throws and touches nothing but the utterances. *)
Lemma Variant1_speak_quiet t w :
  exists w', Variant1.speak t w = (Ok tt, w') /\
             messages w' = messages w /\ console w' = console w /\
             fetched w' = fetched w.
Proof.
  unfold Variant1.speak. destruct (speechSynthesis w && truthy (Str t)).
  - now exists (utter t w).
  - now exists w.
Qed.

Lemma Variant2_speak_quiet t w :
  exists w', Variant2.speak t w = (Ok tt, w') /\
             messages w' = messages w /\ console w' = console w /\
             fetched w' = fetched w.
Proof.
  unfold Variant2.speak. destruct (speechSynthesis w && truthy (Str t)).
  - now exists (utter (Variant2.cleanText t) w).
  - now exists w.
Qed.

(** *** The second variant *)

(** The body of the [try] either stores one reply in stored form or
    throws before it has changed anything. *)
Lemma Variant2_try_body_cases rt fr settled w :
  (exists t w1,
      Variant2.try_body rt fr settled w = (Ok tt, w1) /\
      stored_form t /\
      messages w1 = messages w ++ [reply_message (Str t) (now w)] /\
      console w1 = console w /\ fetched w1 = fetched w)
  \/ (exists e, Variant2.try_body rt fr settled w = (Throw e, w)).
Proof.
  assert (S : forall t, stored_form t ->
    exists t0 w1,
      (if frame_voiceOutput fr then Variant2.speak (trim t) else ret tt)
        (setMessages (fun prev => prev ++ [reply_message (Str t) (now w)]) w)
      = (Ok tt, w1) /\
      stored_form t0 /\
      messages w1 = messages w ++ [reply_message (Str t0) (now w)] /\
      console w1 = console w /\ fetched w1 = fetched w).
  { intros t F. exists t. destruct (frame_voiceOutput fr).
    - destruct (Variant2_speak_quiet (trim t)
                  (setMessages (fun prev => prev ++ [reply_message (Str t) (now w)]) w))
        as (w1 & E & M & C & N).
      exists w1. rewrite E, M, C, N. auto.
    - eexists. unfold ret. auto. }
  destruct settled as [reason | status body].
  { right. now exists (Error reason). }
  cbv [Variant2.try_body bind eval ret throw effect response_json].
  destruct (response_ok status); cbn [negb].
  - destruct body as [complaint | v]; [right; now eexists|].
    destruct (has_generated_part rt v) as [[|] | e]; [| |right; now eexists].
    + destruct (first_part_text rt v) as [raw | e]; [|right; now eexists].
      destruct (string_receiver rt raw (str "replace")) as [s | e];
        [|right; now eexists].
      left. apply (S (Variant2.cleanResponse s)), cleanResponse_stored_form.
    + left. apply (S fallback), fallback_stored_form.
  - destruct body as [complaint | v]; right; now eexists.
Qed.

Lemma Variant2_try_body_fails rt fr settled w :
  turn_fails settled ->
  exists e, Variant2.try_body rt fr settled w = (Throw e, w).
Proof.
  intros [reason | status body K | status complaint K | status K];
    cbv [Variant2.try_body bind eval ret throw effect response_json];
    try rewrite K; cbn [negb].
  - now eexists.
  - destruct body; now eexists.
  - now eexists.
  - now eexists.
Qed.

Lemma Variant2_caught rt fr settled w e :
  Variant2.try_body rt fr settled w = (Throw e, w) ->
  Variant2.handleSendMessage_resume rt fr settled w =
  setIsTyping false
    (setMessages (fun prev => prev ++ [error_message Variant2.apology (now w)])
       (console_error e w)).
Proof.
  intros E. unfold Variant2.handleSendMessage_resume.
  now rewrite (try_throws _ _ _ _ _ _ _ E eq_refl).
Qed.

(** What a settled request leaves behind in the second variant: one reply
    in stored form, or one apology and the error in the log. *)
Lemma Variant2_resume_outcome rt fr settled w :
  let w' := Variant2.handleSendMessage_resume rt fr settled w in
  fetched w' = fetched w /\
  ((exists t, stored_form t /\
              messages w' = messages w ++ [reply_message (Str t) (now w)] /\
              console w' = console w)
   \/ (exists e, messages w' = messages w ++ [error_message Variant2.apology (now w)] /\
                 console w' = console w ++ [e])).
Proof.
  cbv zeta.
  destruct (Variant2_try_body_cases rt fr settled w)
    as [(t & w1 & E & F & M & C & N) | (e & E)].
  - unfold Variant2.handleSendMessage_resume.
    rewrite (try_returns _ _ _ _ _ E). cbn. split; [exact N|].
    left. exists t. auto.
  - rewrite (Variant2_caught _ _ _ _ _ E). cbn. split; [reflexivity|].
    right. now exists e.
Qed.

(** *** The first variant *)

Lemma Variant1_try_body_fails rt fr settled w :
  turn_fails settled ->
  exists e, Variant1.try_body rt fr settled w = (Throw e, w) /\ raised_by settled e.
Proof.
  assert (simple : forall s m,
            (forall st v, s <> Response st (Json v)) ->
            (forall reason, s = Rejected reason -> m = reason) ->
            (forall st c, s = Response st (NotJson c) -> m = c) ->
            raised_by s (Error m)).
  { intros s m N R C. split; [|split; [|split]].
    - intros reason E. f_equal. now apply R.
    - intros st c E. f_equal. now apply (C st).
    - intros st fields d k E. now apply N in E.
    - intros st fields d E. now apply N in E. }
  intros [reason | status body K | status complaint K | status K];
    cbv [Variant1.try_body bind eval ret throw effect response_json];
    try rewrite K; cbn [negb].
  4:{ eexists. split; [reflexivity|].
      split; [|split; [|split]]; discriminate. }
  - eexists. split; [reflexivity|]. apply simple; congruence.
  - destruct body as [complaint | v].
    { eexists. split; [reflexivity|]. apply simple; congruence. }
    exists (match get_prop rt v (str "error") with
            | Throw e => e
            | Ok d =>
                match get_prop rt d (str "message") with
                | Throw e => e
                | Ok m =>
                    new_Error rt
                      (if truthy m then m
                       else Str (str "API call failed with status: "
                                 ++ decimal status))
                end
            end).
    split.
    { destruct (get_prop rt v (str "error")) as [d|e]; [|reflexivity].
      destruct (get_prop rt d (str "message")) as [m|e]; reflexivity. }
    split; [|split; [|split]]; try discriminate.
    + intros st fields d m E L1 L2 N. injection E as -> ->.
      cbn [get_prop]. rewrite L1. cbn [get_prop]. rewrite L2.
      destruct m; [contradiction | reflexivity].
    + intros st fields d E L1 A. injection E as -> ->.
      cbn [get_prop]. rewrite L1. cbn [get_prop].
      destruct A as [-> | ->]; reflexivity.
  - eexists. split; [reflexivity|]. apply simple; congruence.
Qed.

Lemma Variant1_caught rt fr settled w e :
  Variant1.try_body rt fr settled w = (Throw e, w) ->
  Variant1.handleSendMessage_resume rt fr settled w =
  setIsTyping false
    (setMessages (fun prev => prev ++ [error_message (trouble ++ message e) (now w)])
       (console_error e w)).
Proof.
  intros E. unfold Variant1.handleSendMessage_resume.
  now rewrite (try_throws _ _ _ _ _ _ _ E eq_refl).
Qed.

(** *** A condition that is false *)



(** *** Whole turns *)

Lemma Variant1_turn rt settled later w :
  accepts w ->
  Variant1.handleSendMessage rt settled later w =
  Variant1.handleSendMessage_resume rt {| frame_voiceOutput := voiceOutput w |}
    settled (tick later (sending w)).
Proof.
  intros A. unfold Variant1.handleSendMessage.
  now rewrite (handleSendMessage_begin_accepted w A).
Qed.

Lemma Variant2_turn rt settled later w :
  accepts w ->
  Variant2.handleSendMessage rt settled later w =
  Variant2.handleSendMessage_resume rt {| frame_voiceOutput := voiceOutput w |}
    settled (tick later (sending w)).
Proof.
  intros A. unfold Variant2.handleSendMessage.
  now rewrite (handleSendMessage_begin_accepted w A).
Qed.

Lemma app_two {A} (l : list A) (a b : A) : (l ++ [a]) ++ [b] = l ++ [a; b].
Proof. now rewrite <- app_assoc. Qed.

Lemma fetched_preserved body handler w :
  (forall w0, fetched (snd (body w0)) = fetched w0) ->
  (forall e w0, fetched (snd (handler e w0)) = fetched w0) ->
  fetched (snd (try_catch_finally body handler (effect (setIsTyping false)) w))
  = fetched w.
Proof.
  intros B H. unfold try_catch_finally.
  specialize (B w). destruct (body w) as [[[]|e] w1]; simpl in *; [exact B|].
  specialize (H e w1). destruct (handler e w1) as [[[]|e'] w2]; simpl in *;
    congruence.
Qed.

Lemma Variant1_try_body_fetched rt fr settled w :
  fetched (snd (Variant1.try_body rt fr settled w)) = fetched w.
Proof.
  destruct settled as [reason | status body]; [reflexivity|].
  cbv [Variant1.try_body bind eval ret throw effect response_json].
  destruct (response_ok status); cbn [negb].
  - destruct body as [c | v]; [reflexivity|].
    destruct (has_generated_part rt v) as [[|] | e]; [| |reflexivity].
    + destruct (first_part_text rt v) as [raw | e]; [|reflexivity].
      destruct (frame_voiceOutput fr); [|reflexivity].
      destruct (string_receiver rt raw (str "trim")) as [t | e]; [|reflexivity].
      match goal with |- context [Variant1.speak ?t ?x] =>
        destruct (Variant1_speak_quiet t x) as (w1 & E & _ & _ & N) end.
      rewrite E. exact N.
    + destruct (frame_voiceOutput fr); [|reflexivity].
      cbn [string_receiver].
      match goal with |- context [Variant1.speak ?t ?x] =>
        destruct (Variant1_speak_quiet t x) as (w1 & E & _ & _ & N) end.
      rewrite E. exact N.
  - destruct body as [c | v]; [reflexivity|].
    destruct (get_prop rt v (str "error")) as [d | e]; [|reflexivity].
    destruct (get_prop rt d (str "message")); reflexivity.
Qed.

Lemma Variant1_resume_fetched rt fr settled w :
  fetched (Variant1.handleSendMessage_resume rt fr settled w) = fetched w.
Proof.
  unfold Variant1.handleSendMessage_resume. apply fetched_preserved.
  - apply Variant1_try_body_fetched.
  - reflexivity.
Qed.

(** The second variant: every turn appends the user message and one
    message of the assistant. *)
Lemma Variant2_turn_appends_two rt settled later w :
  accepts w ->
  exists m,
    messages (Variant2.handleSendMessage rt settled later w)
    = messages w ++ [userMessage w; m] /\ sender m = ai.
Proof.
  intros A. rewrite (Variant2_turn _ _ _ _ A).
  destruct (Variant2_resume_outcome rt {| frame_voiceOutput := voiceOutput w |}
              settled (tick later (sending w)))
    as [_ [(t & _ & M & _) | (e & M & _)]];
    rewrite M; cbn [messages sending tick fetch setIsTyping setInput setMessages];
    rewrite app_two; eexists; split; reflexivity.
Qed.

(** A read that throws while the condition is evaluated ends the turn in
    the [catch] block, in both variants. *)
Lemma throwing_condition_fails_turn rt status result e later w :
  accepts w -> response_ok status = true ->
  has_generated_part rt result = Throw e ->
  messages (Variant1.handleSendMessage rt (Response status (Json result)) later w)
  = messages w ++ [userMessage w; error_message (trouble ++ message e) later]
  /\
  messages (Variant2.handleSendMessage rt (Response status (Json result)) later w)
  = messages w ++ [userMessage w; error_message Variant2.apology later].
Proof.
  intros A K H.
  rewrite (Variant1_turn _ _ _ _ A), (Variant2_turn _ _ _ _ A).
  assert (E1 : forall fr w0,
            Variant1.try_body rt fr (Response status (Json result)) w0 = (Throw e, w0)).
  { intros fr w0. cbv [Variant1.try_body bind eval ret throw effect response_json].
    now rewrite K, H. }
  assert (E2 : forall fr w0,
            Variant2.try_body rt fr (Response status (Json result)) w0 = (Throw e, w0)).
  { intros fr w0. cbv [Variant2.try_body bind eval ret throw effect response_json].
    now rewrite K, H. }
  rewrite (Variant1_caught _ _ _ _ _ (E1 _ _)), (Variant2_caught _ _ _ _ _ (E2 _ _)).
  cbn [messages sending tick fetch setIsTyping setInput setMessages
       console_error now].
  now rewrite !app_two.
Qed.

(** The first variant on a response whose first part has no [text], with
    voice output on: the reply is stored, then [trim] is read of
    [undefined] and the error message is stored after it. *)
Lemma Variant1_textless_part rt fields later w :
  accepts w -> voiceOutput w = true ->
  lookup (str "text") fields = Undefined ->
  messages (Variant1.handleSendMessage rt
              (Response 200 (Json (reply_with (Obj fields)))) later w)
  = messages w ++
    [ userMessage w;
      reply_message Undefined later;
      error_message
        (trouble ++ TypeError_message rt (ReadOfNullish Undefined (str "trim")))
        later ].
Proof.
  intros A V T. rewrite (Variant1_turn _ _ _ _ A), V.
  unfold Variant1.handleSendMessage_resume.
  assert (E : Variant1.try_body rt {| frame_voiceOutput := true |}
                (Response 200 (Json (reply_with (Obj fields))))
                (tick later (sending w))
              = (Throw (TypeError rt (ReadOfNullish Undefined (str "trim"))),
                 setMessages (fun prev => prev ++ [reply_message Undefined later])
                   (tick later (sending w)))).
  { cbv [Variant1.try_body bind eval ret throw effect response_json].
    change (response_ok 200) with true. cbn [negb].
    change (has_generated_part rt (reply_with (Obj fields))) with (@Ok bool true).
    cbv iota beta.
    change (first_part_text rt (reply_with (Obj fields)))
      with (Ok (lookup (str "text") fields)).
    rewrite T. reflexivity. }
  rewrite (try_throws _ _ _ _ _ _ _ E eq_refl).
  cbn [messages sending tick fetch setIsTyping setInput setMessages
       console_error effect snd now].
  now rewrite <- !app_assoc.
Qed.

(* ===================================================================== *)
(** ** The claims *)
(* ===================================================================== *)

(** C1, at the input on which the first variant breaks it.  The response
    [{"candidates":[{"content":{"parts":[{}]}}]}] has a part without
    [text]; with voice output on, the reply is stored with an undefined
    text, then [aiResponseText.trim()] throws and the [catch] block stores
    an error message as well: the turn appends three messages, not two. *)
Theorem Variant1_textless_part_appends_three :
  let w := typed (str "key") (str "Hello") 1 in
  let w' := Variant1.handleSendMessage v8
              (Response 200 (Json (reply_with (Obj [])))) 5 w in
  messages w' =
    [ userMessage w;
      reply_message Undefined 5;
      error_message
        (trouble ++ str "Cannot read properties of undefined (reading 'trim')") 5 ]
  /\ length (messages w') = (length (messages w) + 3)%nat.
Proof. split; reflexivity. Qed.

(** C2.  A call of [handleSendMessage] whose input is empty or only white
    space, or that finds a request pending, returns at once: nothing of
    the state changes (history, pending flag), no request is issued,
    whatever the network would have answered.  A submission made while a
    request is under way finds the flag set and is such a call. *)
Theorem handleSendMessage_guard_is_noop (w : World) :
  forallb is_white_space (input w) = true \/ isTyping w = true ->
  handleSendMessage_begin w = (w, None) /\
  forall rt settled later,
    Variant1.handleSendMessage rt settled later w = w /\
    Variant2.handleSendMessage rt settled later w = w.
Proof.
  intros H. pose proof (handleSendMessage_begin_refused w H) as E.
  split; [exact E|]. intros rt settled later.
  unfold Variant1.handleSendMessage, Variant2.handleSendMessage.
  rewrite E. now split.
Qed.

Lemma handleSendMessage_guard_is_noop_witness :
  (forallb is_white_space (input second_submission) = true
   \/ isTyping second_submission = true) /\
  handleSendMessage_begin second_submission = (second_submission, None).
Proof.
  split; [right; reflexivity|].
  apply (handleSendMessage_guard_is_noop second_submission). right. reflexivity.
Defined.

(** While a request is under way every further submission is refused. *)
Lemma submission_under_way_dropped w s :
  accepts w ->
  handleSendMessage_begin (setInput s (sending w)) = (setInput s (sending w), None).
Proof.
  intros _. apply handleSendMessage_begin_refused. right. reflexivity.
Qed.

(** C3, refuted on the first variant: the text of the error message
    carries the error message of the service after a non-success status,
    and the reason of the rejection after a network failure; the two
    failures give two different texts. *)
Lemma Variant1_error_text_carries_detail :
  let w := typed (str "key") (str "Hello") 1 in
  let shown settled :=
    map (fun m => (text m, error m))
        (skipn 1 (messages (Variant1.handleSendMessage v8 settled 5 w))) in
  shown (Response 400 (Json (error_with (str "API key not valid."))))
    = [(Str (str "Sorry, something went wrong: API key not valid."), true)]
  /\ shown (Rejected (str "Failed to fetch"))
    = [(Str (str "Sorry, something went wrong: Failed to fetch"), true)]
  /\ shown (Response 400 (Json (error_with (str "API key not valid."))))
     <> shown (Rejected (str "Failed to fetch")).
Proof. repeat split. discriminate. Qed.

(** C3, amended.  Whenever a turn fails (network failure, non-success
    status, malformed body) the pipeline appends, after the user
    message, exactly one assistant message with the error flag set, and
    logs the error.  In the second variant the text of that message is the
    fixed string "Sorry, an error occurred. Please try again.", whatever
    the failure.  In the first variant it is "Sorry, something went
    wrong: " followed by the message of the error raised: the reason of the
    rejection, the complaint of the parser, the error message of the
    service, or the status. *)
Theorem failed_turn_appends_one_error_message rt settled later w :
  accepts w -> turn_fails settled ->
  (exists e,
      messages (Variant2.handleSendMessage rt settled later w)
      = messages w ++ [userMessage w; error_message Variant2.apology later] /\
      console (Variant2.handleSendMessage rt settled later w) = console w ++ [e])
  /\
  (exists e,
      raised_by settled e /\
      messages (Variant1.handleSendMessage rt settled later w)
      = messages w ++ [userMessage w; error_message (trouble ++ message e) later] /\
      console (Variant1.handleSendMessage rt settled later w) = console w ++ [e]).
Proof.
  intros A F. split.
  - rewrite (Variant2_turn _ _ _ _ A).
    destruct (Variant2_try_body_fails rt {| frame_voiceOutput := voiceOutput w |}
                settled (tick later (sending w)) F) as [e E].
    rewrite (Variant2_caught _ _ _ _ _ E). exists e.
    cbn [messages console sending tick fetch setIsTyping setInput setMessages
         console_error now].
    now rewrite app_two.
  - rewrite (Variant1_turn _ _ _ _ A).
    destruct (Variant1_try_body_fails rt {| frame_voiceOutput := voiceOutput w |}
                settled (tick later (sending w)) F) as (e & E & R).
    rewrite (Variant1_caught _ _ _ _ _ E). exists e.
    cbn [messages console sending tick fetch setIsTyping setInput setMessages
         console_error now].
    now rewrite app_two.
Qed.

Lemma failed_turn_appends_one_error_message_witness :
  let w := typed (str "key") (str "Hello") 1 in
  let settled := Response 503 (NotJson (str "Unexpected token < in JSON")) in
  accepts w /\ turn_fails settled /\
  exists e,
    messages (Variant2.handleSendMessage v8 settled 5 w)
    = messages w ++ [userMessage w; error_message Variant2.apology 5] /\
    console (Variant2.handleSendMessage v8 settled 5 w) = console w ++ [e].
Proof.
  cbv zeta. split; [split; reflexivity|]. split; [now apply bad_status|].
  apply (failed_turn_appends_one_error_message v8
           (Response 503 (NotJson (str "Unexpected token < in JSON"))) 5
           (typed (str "key") (str "Hello") 1)).
  - split; reflexivity.
  - now apply bad_status.
Defined.

(** C4, refuted: with no key stored the call appends the user message and
    issues the request all the same. *)
Lemma missing_credential_is_not_checked :
  let w := typed [] (str "Hello") 1 in
  messages (fst (handleSendMessage_begin w)) = [userMessage w]
  /\ messages w = []
  /\ length (fetched (fst (handleSendMessage_begin w))) = 1%nat
  /\ fetched w = [].
Proof. repeat split. Qed.

(** C4, amended.  If no credential is available (the stored key is the
    empty string) when [handleSendMessage] is called with otherwise valid
    input, the call is not refused: the user message is appended and the
    request is issued, with an empty key in its address. *)
Theorem empty_key_is_sent (w : World) :
  apiKey w = [] -> accepts w ->
  exists w1 fr,
    handleSendMessage_begin w = (w1, Some fr) /\
    messages w1 = messages w ++ [userMessage w] /\
    fetched w1 =
      fetched w ++ [{| url := apiUrl [];
                       contents := transcript (messages w ++ [userMessage w]) |}].
Proof.
  intros K A. rewrite (handleSendMessage_begin_accepted w A).
  do 2 eexists. split; [reflexivity|]. split; [reflexivity|].
  cbn [fetched fetch setIsTyping setInput setMessages].
  now rewrite K, chatHistory_transcript.
Qed.

Lemma empty_key_is_sent_witness :
  let w := typed [] (str "Hello") 1 in
  apiKey w = [] /\ accepts w /\
  exists w1 fr,
    handleSendMessage_begin w = (w1, Some fr) /\
    messages w1 = messages w ++ [userMessage w] /\
    fetched w1 =
      fetched w ++ [{| url := apiUrl [];
                       contents := transcript (messages w ++ [userMessage w]) |}].
Proof.
  cbv zeta. split; [reflexivity|]. split; [split; reflexivity|].
  apply (empty_key_is_sent (typed [] (str "Hello") 1)).
  - reflexivity.
  - split; reflexivity.
Defined.

(** C5, refuted: a tag written in the input is handed to the page as
    it stands. *)
Lemma formatText_passes_markup :
  Variant2.formatText (str "<img src=x onerror=alert(1)>")
    = str "<img src=x onerror=alert(1)>"
  /\ only_defined_tags (Variant2.formatText (str "<img src=x onerror=alert(1)>"))
     = false.
Proof. split; reflexivity. Qed.

(** C5, amended.  For every input string without the character [<], every
    [<] of the output of the display transform opens one of the tags the
    transform defines (bold, italic, inline code, quoted bold, line break).
    The transform escapes nothing: what the input holds besides the
    emphasis markers is passed to the output as it stands. *)
Theorem formatText_writes_only_defined_tags (s : jsstring) :
  ~ In LT s -> only_defined_tags (Variant2.formatText s) = true.
Proof.
  intros H. apply only_defined_tags_plain in H.
  unfold Variant2.formatText. destruct s as [|c r]; [reflexivity|].
  apply line_break_only_defined_tags.
  apply delimited_only_defined_tags; [now apply foreign_check | reflexivity..|].
  apply delimited_only_defined_tags; [now apply foreign_check | reflexivity..|].
  apply delimited_only_defined_tags; [now apply foreign_check | reflexivity..|].
  apply delimited_only_defined_tags; [now apply foreign_check | reflexivity..|].
  exact H.
Qed.

Lemma formatText_writes_only_defined_tags_witness :
  ~ In LT (str "**Hi** *you*") /\
  only_defined_tags (Variant2.formatText (str "**Hi** *you*")) = true.
Proof.
  assert (N : ~ In LT (str "**Hi** *you*")).
  { simpl. unfold LT. intuition discriminate. }
  split; [exact N|].
  exact (formatText_writes_only_defined_tags (str "**Hi** *you*") N).
Defined.

(** C7.  On each submitted turn the user message is appended and one
    request is issued, and no other for the rest of the turn; the
    transcript it carries is the whole history in order, the message just
    appended included, user messages under the role "user" and assistant
    messages under the role "model", each entry with the text of its
    message. *)
Theorem request_carries_whole_history (w : World) :
  accepts w ->
  exists w1 fr r,
    handleSendMessage_begin w = (w1, Some fr) /\
    messages w1 = messages w ++ [userMessage w] /\
    fetched w1 = fetched w ++ [r] /\
    contents r = transcript (messages w1) /\
    url r = apiUrl (apiKey w) /\
    forall rt settled later,
      fetched (Variant1.handleSendMessage rt settled later w) = fetched w ++ [r] /\
      fetched (Variant2.handleSendMessage rt settled later w) = fetched w ++ [r].
Proof.
  intros A. rewrite (handleSendMessage_begin_accepted w A).
  do 3 eexists. split; [reflexivity|].
  cbn [messages fetched fetch setIsTyping setInput setMessages contents url].
  split; [reflexivity|]. split; [reflexivity|].
  split; [apply chatHistory_transcript|]. split; [reflexivity|].
  intros rt settled later.
  rewrite (Variant1_turn _ _ _ _ A), (Variant2_turn _ _ _ _ A).
  rewrite Variant1_resume_fetched.
  destruct (Variant2_resume_outcome rt {| frame_voiceOutput := voiceOutput w |}
              settled (tick later (sending w))) as [-> _].
  split; reflexivity.
Qed.

Lemma request_carries_whole_history_witness :
  let w := typed (str "key") (str "Hello") 1 in
  accepts w /\
  exists w1 fr r,
    handleSendMessage_begin w = (w1, Some fr) /\
    messages w1 = messages w ++ [userMessage w] /\
    fetched w1 = fetched w ++ [r] /\
    contents r = transcript (messages w1) /\
    url r = apiUrl (apiKey w) /\
    forall rt settled later,
      fetched (Variant1.handleSendMessage rt settled later w) = fetched w ++ [r] /\
      fetched (Variant2.handleSendMessage rt settled later w) = fetched w ++ [r].
Proof.
  cbv zeta. split; [split; reflexivity|].
  apply (request_carries_whole_history (typed (str "key") (str "Hello") 1)).
  split; reflexivity.
Defined.






(** C10.  In the second variant the assistant message appended on a
    successful turn (the one without the error flag) has a text that is a
    string without asterisks, without three line feeds in a row, and
    without white space at its start or at its end. *)
Theorem stored_reply_is_clean rt settled later w :
  accepts w ->
  exists m,
    messages (Variant2.handleSendMessage rt settled later w)
    = messages w ++ [userMessage w; m] /\
    sender m = ai /\
    (error m = false -> exists t, text m = Str t /\ stored_form t).
Proof.
  intros A. rewrite (Variant2_turn _ _ _ _ A).
  destruct (Variant2_resume_outcome rt {| frame_voiceOutput := voiceOutput w |}
              settled (tick later (sending w)))
    as [_ [(t & F & M & _) | (e & M & _)]];
    rewrite M; cbn [messages sending tick fetch setIsTyping setInput setMessages];
    rewrite app_two; eexists; (split; [reflexivity|]); (split; [reflexivity|]).
  - intros _. now exists t.
  - discriminate.
Qed.

Lemma stored_reply_is_clean_witness :
  let w := typed (str "key") (str "Hello") 1 in
  let settled :=
    Response 200 (Json (reply_with (Obj [(str "text", Str (str " **Hi** there  "))]))) in
  accepts w /\
  exists m,
    messages (Variant2.handleSendMessage v8 settled 5 w)
    = messages w ++ [userMessage w; m] /\
    sender m = ai /\
    (error m = false -> exists t, text m = Str t /\ stored_form t).
Proof.
  cbv zeta. split; [split; reflexivity|].
  apply (stored_reply_is_clean v8
    (Response 200 (Json (reply_with (Obj [(str "text", Str (str " **Hi** there  "))]))))
    5 (typed (str "key") (str "Hello") 1)).
  split; reflexivity.
Defined.

(* ===================================================================== *)
(** ** Further properties of the text transforms *)
(* ===================================================================== *)

Lemma tag_free_spec y : tag_free y -> forall a b c, y <> a ++ LT :: b ++ GT :: c.
Proof.
  intros T a. revert y T. induction a as [|x a IH]; intros y T b c E; subst y.
  - destruct T as [T _]. apply (T eq_refl). apply in_or_app. right. now left.
  - destruct T as [_ T]. now apply (IH _ T b c).
Qed.

Lemma spaced_spec y :
  spaced y ->
  forall a c d b, y = a ++ c :: d :: b ->
                  is_white_space c = true -> is_white_space d = false.
Proof.
  intros S a. revert y S. induction a as [|x a IH]; intros y S c d b E W; subst y.
  - destruct S as [S _]. now destruct (S W).
  - destruct S as [_ S]. now apply (IH _ S c d b).
Qed.

Lemma html_tag_thinned s : thinned s (replace html_tag s).
Proof.
  apply replace_thinned. intros p c r rep n E.
  apply html_tag_fires in E. now left.
Qed.

Lemma thinned_length x y : thinned x y -> (length y <= length x)%nat.
Proof. induction 1; simpl; lia. Qed.

(** X1.  Whatever the text, what [speak] of the second variant hands to
    the speech synthesis has no asterisk, no backtick, no line feed and no
    [<] with a [>] after it; its white space is single spaces, none at
    the start and none at the end. *)
Theorem cleanText_output_is_plain (x : jsstring) :
  let y := Variant2.cleanText x in
  ~ In ASTERISK y /\ ~ In BACKTICK y /\ ~ In LF y /\
  (forall a b c, y <> a ++ LT :: b ++ GT :: c) /\
  (forall c, In c y -> is_white_space c = true -> c = SPACE) /\
  (forall a c d b, y = a ++ c :: d :: b ->
                   is_white_space c = true -> is_white_space d = false) /\
  (forall c r, y = c :: r -> is_white_space c = false) /\
  (forall r c, y = r ++ [c] -> is_white_space c = false).
Proof.
  cbv zeta. destruct (cleanText_spoken_form x) as [T A B S C1 C2].
  split; [exact A|]. split; [exact B|]. split.
  { intros H. apply (spaced_In _ _ S) in H; [discriminate | reflexivity]. }
  split; [now apply tag_free_spec|].
  split; [intros c; apply spaced_In, S|].
  split; [now apply spaced_spec|].
  split.
  - intros c r E. rewrite E in C1. exact C1.
  - intros r c E. exact (ends_clean_last _ _ _ C2 E).
Qed.

(** X2.  The clean-up for speech adds nothing: its result is the text
    with code units left out and white space turned into spaces, so it is
    never longer than the text. *)
Theorem cleanText_only_thins (x : jsstring) :
  thinned x (Variant2.cleanText x) /\
  (length (Variant2.cleanText x) <= length x)%nat.
Proof.
  assert (T : thinned x (Variant2.cleanText x)).
  { unfold Variant2.cleanText.
    eapply thinned_trans; [apply html_tag_thinned|].
    eapply thinned_trans; [apply literal_thinned|].
    eapply thinned_trans; [apply literal_thinned|].
    eapply thinned_trans; [apply literal_thinned|].
    eapply thinned_trans; [apply newline_thinned|].
    eapply thinned_trans; [apply white_space_run_thinned|].
    apply trim_thinned. }
  split; [exact T | now apply thinned_length].
Qed.

(** X3.  The texts that the clean-up for speech returns unchanged are
    exactly those in spoken form: no tag, no asterisk, no backtick, single
    spaces as the only white space, none of it at either end. *)
Theorem cleanText_fixed_points (y : jsstring) :
  Variant2.cleanText y = y <-> spoken_form y.
Proof.
  split.
  - intros E. rewrite <- E. apply cleanText_spoken_form.
  - apply cleanText_fixes_spoken_form.
Qed.

Lemma literal_replaced c0 rep s :
  ~ In c0 rep -> ~ In c0 (replace (literal [c0] rep) s).
Proof.
  intros R. unfold replace.
  apply replace_from_ind with (P := fun _ out => ~ In c0 out).
  - simpl. tauto.
  - intros p c r out E IH [H|H]; [|tauto]. subst c.
    unfold literal in E. simpl in E. rewrite N.eqb_refl in E. discriminate.
  - intros p c r rep0 n out E IH H. apply literal_fires in E.
    destruct E as [_ [= -> _]]. apply in_app_or in H. tauto.
Qed.

(** X4.  The display transform leaves no line feed in its output: every
    one has become a [<br>]. *)
Theorem formatText_has_no_line_feed (s : jsstring) :
  ~ In LF (Variant2.formatText s).
Proof.
  unfold Variant2.formatText. destruct s as [|c r]; [simpl; tauto|].
  apply literal_replaced. vm_compute. intuition discriminate.
Qed.

(** *** Subsequences *)

Lemma subseq_nil_l x : subseq [] x.
Proof. induction x; [apply subseq_nil | now apply subseq_skip]. Qed.

Lemma subseq_refl x : subseq x x.
Proof. induction x; [apply subseq_nil | now apply subseq_take]. Qed.

Lemma subseq_trans z y x : subseq z y -> subseq y x -> subseq z x.
Proof.
  intros H1 H2. revert z H1. induction H2; intros z H1.
  - exact H1.
  - apply subseq_skip. now apply IHsubseq.
  - inversion H1; subst.
    + apply subseq_skip. now apply IHsubseq.
    + apply subseq_take. now apply IHsubseq.
Qed.

Lemma subseq_app y1 x1 y2 x2 :
  subseq y1 x1 -> subseq y2 x2 -> subseq (y1 ++ y2) (x1 ++ x2).
Proof.
  intros H1 H2. induction H1; simpl.
  - exact H2.
  - now apply subseq_skip.
  - now apply subseq_take.
Qed.

Lemma subseq_pad p q y x : subseq y x -> subseq y (p ++ x ++ q).
Proof.
  intros H.
  change y with ([] ++ y). apply subseq_app; [apply subseq_nil_l|].
  rewrite <- (app_nil_r y). apply subseq_app; [exact H | apply subseq_nil_l].
Qed.

Lemma subseq_filter f x : subseq (filter f x) x.
Proof.
  induction x as [|c x IH]; simpl; [apply subseq_nil|].
  destruct (f c); [apply subseq_take | apply subseq_skip]; exact IH.
Qed.

Lemma subseq_filter_mono f y x :
  subseq y x -> subseq (filter f y) (filter f x).
Proof.
  induction 1; simpl.
  - apply subseq_nil.
  - destruct (f c); [apply subseq_skip|]; exact IHsubseq.
  - destruct (f c); [apply subseq_take|]; exact IHsubseq.
Qed.

Lemma filter_filter (f : code_unit -> bool) x : filter f (filter f x) = filter f x.
Proof.
  induction x as [|c x IH]; simpl; [reflexivity|].
  destruct (f c) eqn:E; simpl; [rewrite E; f_equal|]; exact IH.
Qed.

Lemma subseq_In y x c : subseq y x -> In c y -> In c x.
Proof.
  intros S. induction S; simpl; intros K; auto.
  destruct K; auto.
Qed.

Lemma subseq_length y x : subseq y x -> (length y <= length x)%nat.
Proof. induction 1; simpl; lia. Qed.

(** A scan whose replacements are taken from their matches only leaves
    code units out. *)
Lemma replace_subseq m :
  (forall p c r rep n, m p (c :: r) = Some (rep, n) ->
                       subseq rep (c :: firstn n r)) ->
  forall s, subseq (replace m s) s.
Proof.
  intros Hm s. unfold replace.
  apply replace_from_ind with (P := fun s out => subseq out s).
  - apply subseq_nil.
  - intros p c r out _ H. now apply subseq_take.
  - intros p c r rep n out E H.
    rewrite <- (firstn_skipn n r).
    change (c :: firstn n r ++ skipn n r) with ((c :: firstn n r) ++ skipn n r).
    apply subseq_app; [now apply (Hm p) | exact H].
Qed.

(** A scan whose replacements keep the code units of the class [f] of
    their matches keeps those of the whole text. *)
Lemma replace_keeps m (f : code_unit -> bool) :
  (forall p c r rep n, m p (c :: r) = Some (rep, n) ->
                       subseq (filter f (c :: firstn n r)) rep) ->
  forall s, subseq (filter f s) (replace m s).
Proof.
  intros Hm s. unfold replace.
  apply replace_from_ind with (P := fun s out => subseq (filter f s) out).
  - apply subseq_nil.
  - intros p c r out _ H. simpl.
    destruct (f c); [now apply subseq_take | now apply subseq_skip].
  - intros p c r rep n out E H.
    rewrite <- (firstn_skipn n r).
    change (c :: firstn n r ++ skipn n r) with ((c :: firstn n r) ++ skipn n r).
    rewrite filter_app. apply subseq_app; [now apply (Hm p) | exact H].
Qed.

Lemma keeps_compose (f : code_unit -> bool) a b c :
  subseq (filter f a) b -> subseq (filter f b) c -> subseq (filter f a) c.
Proof.
  intros H1 H2. apply (subseq_filter_mono f) in H1.
  rewrite filter_filter in H1. eapply subseq_trans; eassumption.
Qed.

Lemma trimStart_subseq s : subseq (trimStart s) s.
Proof.
  induction s as [|c r IH]; simpl; [apply subseq_nil|].
  destruct (is_white_space c); [now apply subseq_skip | apply subseq_refl].
Qed.

Lemma trimEnd_subseq s : subseq (trimEnd s) s.
Proof.
  induction s as [|c r IH]; simpl; [apply subseq_nil|].
  destruct (trimEnd r); [destruct (is_white_space c)|].
  - apply subseq_nil_l.
  - apply subseq_take, subseq_nil_l.
  - now apply subseq_take.
Qed.

Lemma trim_subseq s : subseq (trim s) s.
Proof.
  unfold trim. eapply subseq_trans; [apply trimEnd_subseq | apply trimStart_subseq].
Qed.

Lemma run_of_line_feeds s :
  (2 <= run_length is_LF s)%nat -> exists s', s = LF :: LF :: s'.
Proof.
  destruct s as [|a [|b s']]; simpl.
  - lia.
  - destruct (is_LF a); lia.
  - unfold is_LF. destruct (N.eqb_spec a LF) as [->|]; [|lia].
    destruct (N.eqb_spec b LF) as [->|]; [|lia]. intros _. now exists s'.
Qed.

(** X7.  The clean-up of the generated fragment only takes away: what the
    second variant stores is the fragment with code units left out, in
    their order; it holds nothing that the service did not send and is
    never longer. *)
Theorem cleanResponse_only_deletes (t : jsstring) :
  subseq (Variant2.cleanResponse t) t /\
  (forall c, In c (Variant2.cleanResponse t) -> In c t) /\
  (length (Variant2.cleanResponse t) <= length t)%nat.
Proof.
  assert (erasing : forall m,
            (forall p s rep n, m p s = Some (rep, n) -> rep = []) ->
            forall s, subseq (replace m s) s).
  { intros m Hm. apply replace_subseq. intros p c r rep n E.
    apply Hm in E. subst rep. apply subseq_nil_l. }
  assert (S : subseq (Variant2.cleanResponse t) t).
  { unfold Variant2.cleanResponse.
    eapply subseq_trans; [apply trim_subseq|].
    eapply subseq_trans.
    { apply replace_subseq. intros p c r rep n E.
      apply blank_lines_fires in E. destruct E as (-> & K & ->).
      destruct (run_of_line_feeds (c :: r)) as [s' E]; [lia|].
      injection E as -> ->.
      cbn [run_length] in *. change (is_LF LF) with true in *. cbv iota in *.
      cbn [pred]. destruct (run_length is_LF s') as [|j]; [lia|].
      cbn [firstn]. apply subseq_take, subseq_take, subseq_nil_l. }
    eapply subseq_trans; [apply erasing, list_marker_fires|].
    eapply subseq_trans; [apply erasing, numbered_marker_fires|].
    eapply subseq_trans; [apply erasing, list_marker_fires|].
    eapply subseq_trans; apply erasing; intros p s rep n E;
      (destruct s as [|c r]; [discriminate|]);
      apply literal_fires in E; now destruct E as [_ [= -> _]]. }
  split; [exact S|]. split.
  - intros c. now apply subseq_In.
  - now apply subseq_length.
Qed.

Lemma firstn_exact (x rest : jsstring) : firstn (length x) (x ++ rest) = x.
Proof. induction x as [|c x IH]; simpl; [reflexivity | now rewrite IH]. Qed.

Lemma delimited_match c0 d before after p c r rep n :
  delimited (c0 :: d) before after p (c :: r) = Some (rep, n) ->
  exists cap,
    rep = before ++ cap ++ after /\
    c :: firstn n r = (c0 :: d) ++ cap ++ (c0 :: d).
Proof.
  unfold delimited.
  destruct (starts_with (c0 :: d) (c :: r)) eqn:W; [|discriminate].
  destruct (lazy_until _ _) as [cap|] eqn:L; [|discriminate].
  intros [= <- <-]. exists cap. split; [reflexivity|].
  apply lazy_until_split in L. destruct L as [rest L].
  apply starts_with_split in W. rewrite L in W.
  match goal with
  | |- c :: firstn ?k r = ?x => change (firstn (S k) (c :: r) = x)
  end.
  rewrite W.
  match goal with
  | |- firstn ?k _ = _ =>
      replace k with (length ((c0 :: d) ++ cap ++ (c0 :: d)))
        by (rewrite !length_app; simpl; lia)
  end.
  replace ((c0 :: d) ++ cap ++ (c0 :: d) ++ rest)
    with (((c0 :: d) ++ cap ++ (c0 :: d)) ++ rest)
    by (now rewrite <- !app_assoc).
  apply firstn_exact.
Qed.

(** A rule that takes two marks and writes a tag on each side of what
    stands between them keeps the text between them, and the marks too
    when it writes them back. *)
Lemma delimited_keeps c0 d before after middle_before middle_after s :
  subseq (filter is_text (c0 :: d)) middle_before ->
  subseq (filter is_text (c0 :: d)) middle_after ->
  (exists b, before = b ++ middle_before) ->
  (exists a, after = middle_after ++ a) ->
  subseq (filter is_text s) (replace (delimited (c0 :: d) before after) s).
Proof.
  intros M1 M2 [b ->] [a ->]. apply replace_keeps.
  intros p c r rep n E. apply delimited_match in E.
  destruct E as (cap & -> & ->).
  rewrite !filter_app.
  replace ((b ++ middle_before) ++ cap ++ middle_after ++ a)
    with (b ++ (middle_before ++ cap ++ middle_after) ++ a)
    by (now rewrite <- !app_assoc).
  apply subseq_pad.
  apply subseq_app; [exact M1|].
  apply subseq_app; [apply subseq_filter | exact M2].
Qed.

(** X5.  The display transform loses no text: every code unit of the
    input other than the asterisks, the backticks and the line feeds is in
    the output, and in the same order. *)
Theorem formatText_keeps_text (s : jsstring) :
  subseq (filter is_text s) (Variant2.formatText s).
Proof.
  unfold Variant2.formatText. destruct s as [|c0 r0]; [apply subseq_nil|].
  generalize (c0 :: r0). clear c0 r0. intros s.
  eapply keeps_compose.
  { apply (delimited_keeps ASTERISK [ASTERISK] (str "<strong>") (str "</strong>")
             [] []); try apply subseq_nil.
    - now exists (str "<strong>"); rewrite app_nil_r.
    - now exists (str "</strong>"). }
  eapply keeps_compose.
  { apply (delimited_keeps ASTERISK [] (str "<em>") (str "</em>") [] []);
      try apply subseq_nil.
    - now exists (str "<em>"); rewrite app_nil_r.
    - now exists (str "</em>"). }
  eapply keeps_compose.
  { apply (delimited_keeps BACKTICK [] (str "<code>") (str "</code>") [] []);
      try apply subseq_nil.
    - now exists (str "<code>"); rewrite app_nil_r.
    - now exists (str "</code>"). }
  eapply keeps_compose.
  { apply (delimited_keeps DQUOTE [] (str "<strong>" ++ [DQUOTE])
             (DQUOTE :: str "</strong>") [DQUOTE] [DQUOTE]);
      try apply subseq_refl.
    - now exists (str "<strong>").
    - now exists (str "</strong>"). }
  apply replace_keeps. intros p c r rep n E.
  apply literal_fires in E. destruct E as [-> [= -> ->]].
  apply subseq_nil_l.
Qed.

Lemma formatText_without_asterisk y :
  ~ In ASTERISK y -> Variant2.formatText y = formatText_tail y.
Proof.
  intros A. unfold Variant2.formatText, formatText_tail.
  destruct y as [|c r]; [reflexivity|].
  now rewrite (delimited_id _ _ _ _ _ A), (delimited_id _ _ _ _ _ A).
Qed.

(** X6.  In the second variant the two asterisk rules of the display
    transform never fire on what the pipeline stores for the assistant:
    the clean-up has taken every asterisk away, and the fallback and the
    apology have none, so the message is rendered by the rules for
    backticks, quotes and line feeds alone. *)
Theorem stored_reply_renders_without_emphasis rt settled later w :
  accepts w ->
  exists m t,
    messages (Variant2.handleSendMessage rt settled later w)
    = messages w ++ [userMessage w; m] /\
    text m = Str t /\
    Variant2.formatText t = formatText_tail t.
Proof.
  intros A. rewrite (Variant2_turn _ _ _ _ A).
  destruct (Variant2_resume_outcome rt {| frame_voiceOutput := voiceOutput w |}
              settled (tick later (sending w)))
    as [_ [(t & F & M & _) | (e & M & _)]];
    rewrite M; cbn [messages sending tick fetch setIsTyping setInput setMessages];
    rewrite app_two.
  - eexists. exists t. split; [reflexivity|]. split; [reflexivity|].
    apply formatText_without_asterisk. now destruct F.
  - eexists. exists Variant2.apology. split; [reflexivity|]. split; [reflexivity|].
    apply formatText_without_asterisk. vm_compute. intuition discriminate.
Qed.

Lemma stored_reply_renders_without_emphasis_witness :
  let w := typed (str "key") (str "Hello") 1 in
  let settled :=
    Response 200 (Json (reply_with (Obj [(str "text", Str (str "**Hi** `x`"))]))) in
  accepts w /\
  exists m t,
    messages (Variant2.handleSendMessage v8 settled 5 w)
    = messages w ++ [userMessage w; m] /\
    text m = Str t /\
    Variant2.formatText t = formatText_tail t.
Proof.
  cbv zeta. split; [split; reflexivity|].
  apply (stored_reply_renders_without_emphasis v8
    (Response 200 (Json (reply_with (Obj [(str "text", Str (str "**Hi** `x`"))]))))
    5 (typed (str "key") (str "Hello") 1)).
  split; reflexivity.
Defined.

(* ===================================================================== *)
(** ** Further properties of the pipeline *)
(* ===================================================================== *)

Lemma trim_trim s : trim (trim s) = trim s.
Proof. destruct (trim_clean s) as [C1 C2]. now apply trim_id. Qed.

Lemma Variant2_after_store fr t w0 :
  trim t = t ->
  (if frame_voiceOutput fr then Variant2.speak (trim t) else ret tt) w0
  = (Ok tt,
     if frame_voiceOutput fr && speechSynthesis w0 && truthy (Str t)
     then utter (Variant2.cleanText t) w0 else w0).
Proof.
  intros ->. unfold Variant2.speak, ret, effect.
  destruct (frame_voiceOutput fr); [|reflexivity]. cbn [andb].
  destruct (speechSynthesis w0 && truthy (Str t)); reflexivity.
Qed.

(** The world a settled request leaves behind in the second variant. *)
Lemma Variant2_resume_world rt fr settled w :
  (exists t,
      stored_form t /\
      Variant2.handleSendMessage_resume rt fr settled w =
      setIsTyping false
        (let w0 := setMessages (fun prev => prev ++ [reply_message (Str t) (now w)]) w in
         if frame_voiceOutput fr && speechSynthesis w && truthy (Str t)
         then utter (Variant2.cleanText t) w0 else w0))
  \/ (exists e,
      Variant2.handleSendMessage_resume rt fr settled w =
      setIsTyping false
        (setMessages (fun prev => prev ++ [error_message Variant2.apology (now w)])
           (console_error e w))).
Proof.
  assert (K : forall t, stored_form t -> trim t = t ->
    Variant2.try_body rt fr settled w =
      (if frame_voiceOutput fr then Variant2.speak (trim t) else ret tt)
        (setMessages (fun prev => prev ++ [reply_message (Str t) (now w)]) w) ->
    exists t0,
      stored_form t0 /\
      Variant2.handleSendMessage_resume rt fr settled w =
      setIsTyping false
        (let w0 := setMessages (fun prev => prev ++ [reply_message (Str t0) (now w)]) w in
         if frame_voiceOutput fr && speechSynthesis w && truthy (Str t0)
         then utter (Variant2.cleanText t0) w0 else w0)).
  { intros t F T E. exists t. split; [exact F|].
    rewrite (Variant2_after_store fr t _ T) in E.
    unfold Variant2.handleSendMessage_resume.
    rewrite (try_returns _ _ _ _ _ E). reflexivity. }
  assert (failing : forall e, Variant2.try_body rt fr settled w = (Throw e, w) ->
    exists e0,
      Variant2.handleSendMessage_resume rt fr settled w =
      setIsTyping false
        (setMessages (fun prev => prev ++ [error_message Variant2.apology (now w)])
           (console_error e0 w))).
  { intros e E. exists e. now apply Variant2_caught. }
  destruct settled as [reason | status body].
  { right. now apply (failing (Error reason)). }
  revert K failing.
  cbv [Variant2.try_body bind eval ret throw effect response_json].
  destruct (response_ok status); cbn [negb].
  - destruct body as [complaint | v]; [intros _ H; right; now eapply H|].
    destruct (has_generated_part rt v) as [[|] | e];
      [| | intros _ H; right; now eapply H].
    + destruct (first_part_text rt v) as [raw | e];
        [|intros _ H; right; now eapply H].
      destruct (string_receiver rt raw (str "replace")) as [s | e];
        [|intros _ H; right; now eapply H].
      intros K _. left. apply (K (Variant2.cleanResponse s)).
      * apply cleanResponse_stored_form.
      * apply trim_trim.
      * reflexivity.
    + intros K _. left. apply (K fallback).
      * apply fallback_stored_form.
      * reflexivity.
      * reflexivity.
  - destruct body as [complaint | v]; intros _ H; right; now eapply H.
Qed.

(** X10.  In the second variant a turn speaks at most once, and only a
    reply: when voice output is on, the browser has a speech synthesis and
    the stored reply is not empty, the utterance is the speech clean-up of
    exactly the text stored; otherwise, and whenever the turn ends in the
    apology, nothing is spoken. *)
Theorem Variant2_speaks_what_it_stores rt settled later w :
  accepts w ->
  let w' := Variant2.handleSendMessage rt settled later w in
  (exists t,
      messages w' = messages w ++ [userMessage w; reply_message (Str t) later] /\
      spoken w' =
        spoken w ++
        (if voiceOutput w && speechSynthesis w && truthy (Str t)
         then [Variant2.cleanText t] else []))
  \/ (messages w' = messages w ++ [userMessage w; error_message Variant2.apology later] /\
      spoken w' = spoken w).
Proof.
  intros A. cbv zeta. rewrite (Variant2_turn _ _ _ _ A).
  destruct (Variant2_resume_world rt {| frame_voiceOutput := voiceOutput w |}
              settled (tick later (sending w))) as [(t & _ & E) | (e & E)];
    rewrite E; clear E; [left; exists t | right].
  - cbn [frame_voiceOutput speechSynthesis sending tick fetch setIsTyping
         setInput setMessages now].
    destruct (voiceOutput w && speechSynthesis w && truthy (Str t));
      cbn [messages spoken setIsTyping setMessages utter];
      change (messages (tick later (sending w))) with (messages w ++ [userMessage w]);
      change (spoken (tick later (sending w))) with (spoken w);
      rewrite app_two, ?app_nil_r; split; reflexivity.
  - cbn [messages spoken setIsTyping setMessages console_error].
    change (messages (tick later (sending w))) with (messages w ++ [userMessage w]).
    rewrite app_two. split; reflexivity.
Qed.

Lemma Variant2_speaks_what_it_stores_witness :
  let w := typed (str "key") (str "Hello") 1 in
  let settled :=
    Response 200 (Json (reply_with (Obj [(str "text", Str (str "**Hi**"))]))) in
  accepts w /\
  spoken (Variant2.handleSendMessage v8 settled 5 w) = [str "Hi"].
Proof.
  cbv zeta. split; [split; reflexivity|].
  destruct (Variant2_speaks_what_it_stores v8
    (Response 200 (Json (reply_with (Obj [(str "text", Str (str "**Hi**"))]))))
    5 (typed (str "key") (str "Hello") 1)) as [(t & M & S) | (M & S)].
  - split; reflexivity.
  - reflexivity.
  - reflexivity.
Defined.

(** The world a settled request leaves behind in the first variant: the
    error message alone when the request failed; else the reply, stored as
    the response holds it, and after it an error message when voice
    output is on and the text stored is no string. *)
Lemma Variant1_resume_world rt fr settled w :
  (exists e,
      Variant1.handleSendMessage_resume rt fr settled w =
      setIsTyping false
        (setMessages (fun prev => prev ++ [error_message (trouble ++ message e) (now w)])
           (console_error e w)))
  \/ (exists v,
      let w0 := setMessages (fun prev => prev ++ [reply_message v (now w)]) w in
      (frame_voiceOutput fr = false /\
       Variant1.handleSendMessage_resume rt fr settled w = setIsTyping false w0)
      \/ (frame_voiceOutput fr = true /\ exists t,
          v = Str t /\
          Variant1.handleSendMessage_resume rt fr settled w =
          setIsTyping false
            (if speechSynthesis w && truthy (Str (trim t))
             then utter (trim t) w0 else w0))
      \/ (frame_voiceOutput fr = true /\ (forall t, v <> Str t) /\ exists e,
          Variant1.handleSendMessage_resume rt fr settled w =
          setIsTyping false
            (setMessages
               (fun prev => prev ++ [error_message (trouble ++ message e) (now w)])
               (console_error e w0)))).
Proof.
  assert (K : forall v,
    Variant1.try_body rt fr settled w =
      (if frame_voiceOutput fr then
         bind (eval (string_receiver rt v (str "trim")))
              (fun t => Variant1.speak (trim t))
       else ret tt)
        (setMessages (fun prev => prev ++ [reply_message v (now w)]) w) ->
    exists v0,
      let w0 := setMessages (fun prev => prev ++ [reply_message v0 (now w)]) w in
      (frame_voiceOutput fr = false /\
       Variant1.handleSendMessage_resume rt fr settled w = setIsTyping false w0)
      \/ (frame_voiceOutput fr = true /\ exists t,
          v0 = Str t /\
          Variant1.handleSendMessage_resume rt fr settled w =
          setIsTyping false
            (if speechSynthesis w && truthy (Str (trim t))
             then utter (trim t) w0 else w0))
      \/ (frame_voiceOutput fr = true /\ (forall t, v0 <> Str t) /\ exists e,
          Variant1.handleSendMessage_resume rt fr settled w =
          setIsTyping false
            (setMessages
               (fun prev => prev ++ [error_message (trouble ++ message e) (now w)])
               (console_error e w0)))).
  { intros v E. exists v. cbv zeta.
    unfold Variant1.handleSendMessage_resume.
    destruct (frame_voiceOutput fr).
    - assert (plain : forall e,
                string_receiver rt v (str "trim") = Throw e ->
                (forall t, v <> Str t) ->
                exists e0,
                  snd (try_catch_finally (Variant1.try_body rt fr settled)
                         Variant1.catch_block (effect (setIsTyping false)) w) =
                  setIsTyping false
                    (setMessages
                       (fun prev =>
                          prev ++ [error_message (trouble ++ message e0) (now w)])
                       (console_error e0
                          (setMessages
                             (fun prev => prev ++ [reply_message v (now w)]) w)))).
      { intros e R _. exists e. unfold bind, eval in E. rewrite R in E.
        now rewrite (try_throws _ _ _ _ _ _ _ E eq_refl). }
      destruct v as [| |b|x|t|items|fields];
        try (right; right; split; [reflexivity|]; split; [discriminate|];
             now eapply plain).
      right. left. split; [reflexivity|]. exists t. split; [reflexivity|].
      unfold bind, eval, string_receiver, Variant1.speak, effect, ret in E.
      cbn [speechSynthesis setMessages] in E.
      destruct (speechSynthesis w && truthy (Str (trim t)));
        now rewrite (try_returns _ _ _ _ _ E).
    - left. split; [reflexivity|]. unfold ret in E.
      now rewrite (try_returns _ _ _ _ _ E). }
  assert (failing : forall e, Variant1.try_body rt fr settled w = (Throw e, w) ->
    exists e0,
      Variant1.handleSendMessage_resume rt fr settled w =
      setIsTyping false
        (setMessages
           (fun prev => prev ++ [error_message (trouble ++ message e0) (now w)])
           (console_error e0 w))).
  { intros e E. exists e. now apply Variant1_caught. }
  destruct settled as [reason | status body].
  { left. now apply (failing (Error reason)). }
  revert K failing.
  cbv [Variant1.try_body bind eval ret throw effect response_json].
  destruct (response_ok status); cbn [negb].
  - destruct body as [complaint | v]; [intros _ H; left; now eapply H|].
    destruct (has_generated_part rt v) as [[|] | e];
      [| | intros _ H; left; now eapply H].
    + destruct (first_part_text rt v) as [raw | e];
        [|intros _ H; left; now eapply H].
      intros K _. right. apply (K raw). reflexivity.
    + intros K _. right. apply (K (Str fallback)). reflexivity.
  - destruct body as [complaint | v]; [intros _ H; left; now eapply H|].
    destruct (get_prop rt v (str "error")) as [d | e];
      [|intros _ H; left; now eapply H].
    destruct (get_prop rt d (str "message")) as [m | e];
      intros _ H; left; now eapply H.
Qed.

(** X8.  In the first variant a completed turn appends the user message
    and one message of the assistant, or else, and only with voice output
    on, the user message, a reply whose text is no string, and an error
    message after it. *)
Theorem Variant1_turn_appends_two_or_three rt settled later w :
  accepts w ->
  let w' := Variant1.handleSendMessage rt settled later w in
  (exists m, messages w' = messages w ++ [userMessage w; m] /\ sender m = ai)
  \/ (voiceOutput w = true /\ exists v e,
        (forall t, v <> Str t) /\
        messages w' =
          messages w ++ [userMessage w; reply_message v later;
                         error_message (trouble ++ message e) later]).
Proof.
  intros A. cbv zeta. rewrite (Variant1_turn _ _ _ _ A).
  destruct (Variant1_resume_world rt {| frame_voiceOutput := voiceOutput w |}
              settled (tick later (sending w)))
    as [(e & E) | (v & [(V & E) | [(V & t & -> & E) | (V & N & e & E)]])];
    rewrite E; clear E.
  - left. eexists. cbn [messages setIsTyping setMessages console_error].
    change (messages (tick later (sending w))) with (messages w ++ [userMessage w]).
    rewrite app_two. split; reflexivity.
  - left. eexists. cbn [messages setIsTyping setMessages].
    change (messages (tick later (sending w))) with (messages w ++ [userMessage w]).
    rewrite app_two. split; reflexivity.
  - left. eexists.
    destruct (speechSynthesis (tick later (sending w)) && truthy (Str (trim t)));
      cbn [messages setIsTyping setMessages utter];
      change (messages (tick later (sending w))) with (messages w ++ [userMessage w]);
      rewrite app_two; split; reflexivity.
  - right. split; [exact V|]. exists v, e. split; [exact N|].
    cbn [messages setIsTyping setMessages console_error].
    change (messages (tick later (sending w))) with (messages w ++ [userMessage w]).
    change (now (tick later (sending w))) with later.
    now rewrite <- !app_assoc.
Qed.

Lemma Variant1_turn_appends_two_or_three_witness :
  let w := typed (str "key") (str "Hello") 1 in
  let settled := Response 200 (Json (reply_with (Obj [(str "text", Num PrimFloat.one)]))) in
  accepts w /\
  ((exists m,
      messages (Variant1.handleSendMessage v8 settled 5 w)
      = messages w ++ [userMessage w; m] /\ sender m = ai)
   \/ (voiceOutput w = true /\ exists v e,
        (forall t, v <> Str t) /\
        messages (Variant1.handleSendMessage v8 settled 5 w) =
          messages w ++ [userMessage w; reply_message v 5;
                         error_message (trouble ++ message e) 5])).
Proof.
  cbv zeta. split; [split; reflexivity|].
  apply (Variant1_turn_appends_two_or_three v8
    (Response 200 (Json (reply_with (Obj [(str "text", Num PrimFloat.one)]))))
    5 (typed (str "key") (str "Hello") 1)).
  split; reflexivity.
Defined.

(** X11.  In the first variant what is spoken is the reply as it is
    stored, markup included, with only the white space at its ends taken
    off; a turn speaks at most once, and never an error message. *)
Theorem Variant1_speaks_reply_as_stored rt settled later w :
  accepts w ->
  let w' := Variant1.handleSendMessage rt settled later w in
  spoken w' = spoken w
  \/ (exists t,
        voiceOutput w = true /\ speechSynthesis w = true /\ trim t <> [] /\
        messages w' = messages w ++ [userMessage w; reply_message (Str t) later] /\
        spoken w' = spoken w ++ [trim t]).
Proof.
  intros A. cbv zeta. rewrite (Variant1_turn _ _ _ _ A).
  destruct (Variant1_resume_world rt {| frame_voiceOutput := voiceOutput w |}
              settled (tick later (sending w)))
    as [(e & E) | (v & [(V & E) | [(V & t & -> & E) | (V & N & e & E)]])];
    rewrite E; clear E; try (left; reflexivity).
  change (speechSynthesis (tick later (sending w))) with (speechSynthesis w).
  destruct (speechSynthesis w) eqn:S; [|left; reflexivity].
  destruct (trim t) as [|c r] eqn:T; [left; reflexivity|].
  right. exists t. rewrite T. cbn [frame_voiceOutput] in V.
  split; [exact V|]. split; [reflexivity|]. split; [discriminate|].
  cbn [andb truthy messages spoken setIsTyping setMessages utter].
  change (messages (tick later (sending w))) with (messages w ++ [userMessage w]).
  change (now (tick later (sending w))) with later.
  rewrite app_two. split; reflexivity.
Qed.

Lemma Variant1_speaks_reply_as_stored_witness :
  let w := typed (str "key") (str "Hello") 1 in
  let settled :=
    Response 200 (Json (reply_with (Obj [(str "text", Str (str " **Hi** "))]))) in
  accepts w /\
  spoken (Variant1.handleSendMessage v8 settled 5 w) = [str "**Hi**"].
Proof.
  cbv zeta. split; [split; reflexivity|].
  destruct (Variant1_speaks_reply_as_stored v8
    (Response 200 (Json (reply_with (Obj [(str "text", Str (str " **Hi** "))]))))
    5 (typed (str "key") (str "Hello") 1)) as [S | (t & _)].
  - split; reflexivity.
  - reflexivity.
  - reflexivity.
Defined.

(** X14.  The send button is disabled exactly when a call of
    [handleSendMessage] would return at once. *)
Theorem send_disabled_iff_refused (w : World) :
  send_disabled w = true <-> handleSendMessage_begin w = (w, None).
Proof.
  unfold send_disabled, handleSendMessage_begin.
  destruct (trim (input w)) as [|c r]; cbn [jsstring_eqb truthy negb orb].
  - rewrite orb_true_r. tauto.
  - destruct (isTyping w); cbn [orb]; split; auto; discriminate.
Qed.

(** X12.  The settling of a request does not touch the input, in either
    variant: what was typed while the request was under way is kept, the
    pending flag is off, and the send button is then disabled exactly when
    that input is blank.  So when nothing was typed since the submission
    emptied the input, another call of [handleSendMessage] does nothing. *)
Theorem settling_keeps_the_input rt fr settled (w : World) :
  (let w' := Variant1.handleSendMessage_resume rt fr settled w in
   input w' = input w /\ isTyping w' = false /\
   send_disabled w' = negb (truthy (Str (trim (input w)))) /\
   (input w = [] -> handleSendMessage_begin w' = (w', None)))
  /\
  (let w' := Variant2.handleSendMessage_resume rt fr settled w in
   input w' = input w /\ isTyping w' = false /\
   send_disabled w' = negb (truthy (Str (trim (input w)))) /\
   (input w = [] -> handleSendMessage_begin w' = (w', None))).
Proof.
  assert (G : forall w', input w' = input w -> isTyping w' = false ->
            input w' = input w /\ isTyping w' = false /\
            send_disabled w' = negb (truthy (Str (trim (input w)))) /\
            (input w = [] -> handleSendMessage_begin w' = (w', None))).
  { intros w' I T. split; [exact I|]. split; [exact T|]. split.
    - unfold send_disabled. now rewrite I, T.
    - intros E. apply handleSendMessage_begin_refused. left. now rewrite I, E. }
  cbv zeta. split; apply G; try apply finally_resets.
  - destruct (Variant1_resume_world rt fr settled w)
      as [(e & E) | (v & [(V & E) | [(V & t & -> & E) | (V & N & e & E)]])];
      rewrite E; clear E; try reflexivity.
    destruct (speechSynthesis w && truthy (Str (trim t))); reflexivity.
  - destruct (Variant2_resume_world rt fr settled w) as [(t & _ & E) | (e & E)];
      rewrite E; clear E; try reflexivity.
    cbv zeta.
    destruct (frame_voiceOutput fr && speechSynthesis w && truthy (Str t));
      reflexivity.
Qed.

Lemma settling_keeps_the_input_witness :
  let w := setInput (str "B") (tick 5 (sending (typed (str "key") (str "A") 1))) in
  let fr := {| frame_voiceOutput := true |} in
  let settled := Rejected (str "Failed to fetch") in
  input (Variant1.handleSendMessage_resume v8 fr settled w) = str "B" /\
  input (Variant2.handleSendMessage_resume v8 fr settled w) = str "B" /\
  send_disabled (Variant2.handleSendMessage_resume v8 fr settled w) = false.
Proof.
  cbv zeta.
  destruct (settling_keeps_the_input v8 {| frame_voiceOutput := true |}
              (Rejected (str "Failed to fetch"))
              (setInput (str "B") (tick 5 (sending (typed (str "key") (str "A") 1)))))
    as [(I1 & _) (I2 & _ & D2 & _)].
  split; [exact I1|]. split; [exact I2 | exact D2].
Defined.

Lemma Variant1_stores rt fr status result v w :
  response_ok status = true ->
  (has_generated_part rt result = Ok true /\ first_part_text rt result = Ok v
   \/ has_generated_part rt result = Ok false /\ v = Str fallback) ->
  Variant1.try_body rt fr (Response status (Json result)) w =
  (if frame_voiceOutput fr then
     bind (eval (string_receiver rt v (str "trim")))
          (fun t => Variant1.speak (trim t))
   else ret tt)
    (setMessages (fun prev => prev ++ [reply_message v (now w)]) w).
Proof.
  intros K H. cbv [Variant1.try_body bind eval ret throw effect response_json].
  rewrite K. cbn [negb].
  destruct H as [[-> ->] | [-> ->]]; reflexivity.
Qed.

Lemma Variant2_stores rt fr status result t w :
  response_ok status = true ->
  (has_generated_part rt result = Ok true /\
   (exists raw s, first_part_text rt result = Ok raw /\
                  string_receiver rt raw (str "replace") = Ok s /\
                  t = Variant2.cleanResponse s)
   \/ has_generated_part rt result = Ok false /\ t = fallback) ->
  Variant2.try_body rt fr (Response status (Json result)) w =
  (if frame_voiceOutput fr then Variant2.speak (trim t) else ret tt)
    (setMessages (fun prev => prev ++ [reply_message (Str t) (now w)]) w).
Proof.
  intros K H. cbv [Variant2.try_body bind eval ret throw effect response_json].
  rewrite K. cbn [negb].
  destruct H as [[-> (raw & s & -> & -> & ->)] | [-> ->]]; reflexivity.
Qed.

(** X9.  When the condition of the [if] holds and the first part carries
    the string [t], the turn succeeds: the first variant stores [t] as it
    is, the second stores the clean-up of [t]; neither sets the error flag
    nor logs anything. *)
Theorem generated_fragment_is_stored rt status result t later w :
  accepts w -> response_ok status = true ->
  has_generated_part rt result = Ok true ->
  first_part_text rt result = Ok (Str t) ->
  (let w' := Variant1.handleSendMessage rt (Response status (Json result)) later w in
   messages w' = messages w ++ [userMessage w; reply_message (Str t) later] /\
   console w' = console w)
  /\
  (let w' := Variant2.handleSendMessage rt (Response status (Json result)) later w in
   messages w' =
     messages w ++ [userMessage w; reply_message (Str (Variant2.cleanResponse t)) later] /\
   console w' = console w).
Proof.
  intros A K H F. cbv zeta.
  rewrite (Variant1_turn _ _ _ _ A), (Variant2_turn _ _ _ _ A).
  unfold Variant1.handleSendMessage_resume, Variant2.handleSendMessage_resume.
  split.
  - pose proof (Variant1_stores rt {| frame_voiceOutput := voiceOutput w |}
                  status result (Str t) (tick later (sending w)) K
                  (or_introl (conj H F))) as E.
    cbn [frame_voiceOutput] in E.
    assert (G : exists w1,
              Variant1.try_body rt {| frame_voiceOutput := voiceOutput w |}
                (Response status (Json result)) (tick later (sending w))
              = (Ok tt, w1) /\
              messages w1 = messages w ++ [userMessage w; reply_message (Str t) later] /\
              console w1 = console w).
    { rewrite E. destruct (voiceOutput w).
      - unfold bind, eval, string_receiver.
        match goal with |- context [Variant1.speak ?u ?x] =>
          destruct (Variant1_speak_quiet u x) as (w1 & S & M & C & _) end.
        exists w1. rewrite S, M, C. split; [reflexivity|].
        cbn [messages console setMessages].
        change (messages (tick later (sending w))) with (messages w ++ [userMessage w]).
        rewrite app_two. split; reflexivity.
      - eexists. split; [reflexivity|]. cbn [messages console setMessages].
        change (messages (tick later (sending w))) with (messages w ++ [userMessage w]).
        rewrite app_two. split; reflexivity. }
    destruct G as (w1 & G & M & C). rewrite (try_returns _ _ _ _ _ G).
    split; [exact M | exact C].
  - assert (P : has_generated_part rt result = Ok true /\
                (exists raw s, first_part_text rt result = Ok raw /\
                               string_receiver rt raw (str "replace") = Ok s /\
                               Variant2.cleanResponse t = Variant2.cleanResponse s)).
    { split; [exact H|]. now exists (Str t), t. }
    pose proof (Variant2_stores rt {| frame_voiceOutput := voiceOutput w |}
                  status result (Variant2.cleanResponse t) (tick later (sending w)) K
                  (or_introl P)) as E.
    cbn [frame_voiceOutput] in E.
    assert (G : exists w1,
              Variant2.try_body rt {| frame_voiceOutput := voiceOutput w |}
                (Response status (Json result)) (tick later (sending w))
              = (Ok tt, w1) /\
              messages w1 =
                messages w ++ [userMessage w;
                               reply_message (Str (Variant2.cleanResponse t)) later] /\
              console w1 = console w).
    { rewrite E. destruct (voiceOutput w).
      - match goal with |- context [Variant2.speak ?u ?x] =>
          destruct (Variant2_speak_quiet u x) as (w1 & S & M & C & _) end.
        exists w1. rewrite S, M, C. split; [reflexivity|].
        cbn [messages console setMessages].
        change (messages (tick later (sending w))) with (messages w ++ [userMessage w]).
        rewrite app_two. split; reflexivity.
      - eexists. split; [reflexivity|]. cbn [messages console setMessages].
        change (messages (tick later (sending w))) with (messages w ++ [userMessage w]).
        rewrite app_two. split; reflexivity. }
    destruct G as (w1 & G & M & C). rewrite (try_returns _ _ _ _ _ G).
    split; [exact M | exact C].
Qed.

Lemma generated_fragment_is_stored_witness :
  let w := typed (str "key") (str "Hello") 1 in
  let result := reply_with (Obj [(str "text", Str (str "Hi there"))]) in
  accepts w /\ response_ok 200 = true /\
  has_generated_part v8 result = Ok true /\
  first_part_text v8 result = Ok (Str (str "Hi there")) /\
  messages (Variant1.handleSendMessage v8 (Response 200 (Json result)) 5 w)
  = messages w ++ [userMessage w; reply_message (Str (str "Hi there")) 5].
Proof.
  cbv zeta. split; [split; reflexivity|]. split; [reflexivity|].
  split; [reflexivity|]. split; [reflexivity|].
  destruct (generated_fragment_is_stored v8 200
              (reply_with (Obj [(str "text", Str (str "Hi there"))]))
              (str "Hi there") 5 (typed (str "key") (str "Hello") 1))
    as [[M _] _]; first [exact M | reflexivity | split; reflexivity].
Defined.

Lemma truthy_get_first rt v : truthy v = true -> exists x, get_first rt v = Ok x.
Proof. destruct v; simpl; try discriminate; intros _; eexists; reflexivity. Qed.

(** X13.  When the condition of the [if] of lines 140 and 550 holds, every
    read down to the first part succeeds: reading the fragment is reading
    [text] of that part, and it can only throw when the part itself is
    [null] or [undefined]. *)
Theorem condition_guards_the_reads rt (result : jsval) :
  has_generated_part rt result = Ok true ->
  exists part,
    first_part_text rt result = get_prop rt part (str "text") /\
    forall e, first_part_text rt result = Throw e ->
              absent part /\ e = TypeError rt (ReadOfNullish part (str "text")).
Proof.
  unfold has_generated_part, first_part_text.
  destruct (get_prop rt result (str "candidates")) as [candidates|e];
    cbn [res_bind]; [|discriminate].
  destruct (truthy candidates); cbn [negb]; [|discriminate].
  destruct (get_prop rt candidates (str "length")) as [n|e];
    cbn [res_bind]; [|discriminate].
  destruct (gt_zero rt n); cbn [negb]; [|discriminate].
  destruct (get_first rt candidates) as [first|e]; cbn [res_bind]; [|discriminate].
  destruct (get_prop rt first (str "content")) as [content|e];
    cbn [res_bind]; [|discriminate].
  destruct (truthy content); cbn [negb]; [|discriminate].
  destruct (get_prop rt content (str "parts")) as [parts|e];
    cbn [res_bind]; [|discriminate].
  destruct (truthy parts) eqn:T; cbn [negb]; [|discriminate].
  intros _. destruct (truthy_get_first rt parts T) as [part ->]. cbn [res_bind].
  exists part. split; [reflexivity|].
  intros e E. destruct part; try discriminate;
    (split; [|now injection E as <-]); [now left | now right].
Qed.

Lemma condition_guards_the_reads_witness :
  has_generated_part v8 (reply_with Null) = Ok true /\
  exists part,
    first_part_text v8 (reply_with Null) = get_prop v8 part (str "text") /\
    forall e, first_part_text v8 (reply_with Null) = Throw e ->
              absent part /\ e = TypeError v8 (ReadOfNullish part (str "text")).
Proof.
  split; [reflexivity|].
  apply (condition_guards_the_reads v8 (reply_with Null)). reflexivity.
Defined.

(** *** The key and the history *)

Lemma try_catch_finally_rekeyed k log body handler final w :
  (forall w0, body (rekeyed k log w0) = carried k log (body w0)) ->
  (forall e w0, handler e (rekeyed k log w0) = carried k log (handler e w0)) ->
  (forall w0, final (rekeyed k log w0) = carried k log (final w0)) ->
  try_catch_finally body handler final (rekeyed k log w)
  = carried k log (try_catch_finally body handler final w).
Proof.
  intros B H F. unfold try_catch_finally. rewrite B.
  destruct (body w) as [[[]|e] w1]; cbn [carried fst snd].
  - apply F.
  - rewrite H. destruct (handler e w1) as [[[]|e'] w2]; cbn [carried fst snd].
    + apply F.
    + rewrite F. destruct (final w2) as [[[]|e''] w3]; reflexivity.
Qed.

Lemma Variant1_try_body_rekeyed rt fr settled k log w :
  Variant1.try_body rt fr settled (rekeyed k log w)
  = carried k log (Variant1.try_body rt fr settled w).
Proof.
  destruct settled as [reason | status body]; [reflexivity|].
  cbv [Variant1.try_body bind eval ret throw effect response_json].
  destruct (response_ok status); cbn [negb].
  - destruct body as [c | v]; [reflexivity|].
    destruct (has_generated_part rt v) as [[|] | e]; [| |reflexivity].
    + destruct (first_part_text rt v) as [raw | e]; [|reflexivity].
      destruct (frame_voiceOutput fr); [|reflexivity].
      destruct (string_receiver rt raw (str "trim")) as [t | e]; [|reflexivity].
      unfold Variant1.speak, effect, ret. cbn [speechSynthesis setMessages rekeyed].
      destruct (speechSynthesis w && truthy (Str (trim t))); reflexivity.
    + destruct (frame_voiceOutput fr); [|reflexivity].
      cbn [string_receiver].
      unfold Variant1.speak, effect, ret. cbn [speechSynthesis setMessages rekeyed].
      destruct (speechSynthesis w && truthy (Str (trim fallback))); reflexivity.
  - destruct body as [c | v]; [reflexivity|].
    destruct (get_prop rt v (str "error")) as [d | e]; [|reflexivity].
    destruct (get_prop rt d (str "message")); reflexivity.
Qed.

Lemma Variant2_try_body_rekeyed rt fr settled k log w :
  Variant2.try_body rt fr settled (rekeyed k log w)
  = carried k log (Variant2.try_body rt fr settled w).
Proof.
  destruct settled as [reason | status body]; [reflexivity|].
  cbv [Variant2.try_body bind eval ret throw effect response_json].
  destruct (response_ok status); cbn [negb].
  - destruct body as [c | v]; [reflexivity|].
    destruct (has_generated_part rt v) as [[|] | e]; [| |reflexivity].
    + destruct (first_part_text rt v) as [raw | e]; [|reflexivity].
      destruct (string_receiver rt raw (str "replace")) as [t | e]; [|reflexivity].
      destruct (frame_voiceOutput fr); [|reflexivity].
      unfold Variant2.speak, effect, ret. cbn [speechSynthesis setMessages rekeyed].
      destruct (speechSynthesis w && truthy (Str (trim (Variant2.cleanResponse t))));
        reflexivity.
    + destruct (frame_voiceOutput fr); [|reflexivity].
      unfold Variant2.speak, effect, ret. cbn [speechSynthesis setMessages rekeyed].
      destruct (speechSynthesis w && truthy (Str (trim fallback))); reflexivity.
  - destruct body as [c | v]; reflexivity.
Qed.

(** X15.  The stored key takes no part in a turn but in the address of
    the request: with any other key the history, the input, the pending
    flag, the utterances and the log come out the same, in both
    variants. *)
Theorem key_only_reaches_the_request rt settled later (k : jsstring) (w : World) :
  shown (Variant1.handleSendMessage rt settled later (setApiKey k w))
  = shown (Variant1.handleSendMessage rt settled later w)
  /\
  shown (Variant2.handleSendMessage rt settled later (setApiKey k w))
  = shown (Variant2.handleSendMessage rt settled later w).
Proof.
  unfold Variant1.handleSendMessage, Variant2.handleSendMessage,
    handleSendMessage_begin.
  cbn [input isTyping setApiKey].
  destruct (jsstring_eqb (trim (input w)) [] || isTyping w); [split; reflexivity|].
  set (fr := {| frame_voiceOutput := voiceOutput (setApiKey k w) |}).
  set (log := fetched w ++
              [{| url := apiUrl k;
                  contents := chatHistory (messages w ++ [
                    {| text := Str (input w); sender := user; error := false;
                       id := now w |}]) |}]).
  match goal with
  | |- shown (Variant1.handleSendMessage_resume _ _ _ ?a) =
       shown (Variant1.handleSendMessage_resume _ _ _ ?b) /\ _ =>
      change a with (rekeyed k log b)
  end.
  unfold Variant1.handleSendMessage_resume, Variant2.handleSendMessage_resume.
  split.
  - rewrite try_catch_finally_rekeyed; [reflexivity | | reflexivity | reflexivity].
    intros w0. apply Variant1_try_body_rekeyed.
  - rewrite try_catch_finally_rekeyed; [reflexivity | | reflexivity | reflexivity].
    intros w0. apply Variant2_try_body_rekeyed.
Qed.

(* ===================================================================== *)
(** ** The key, the logout and the microphone *)
(* ===================================================================== *)

Lemma jsstring_eqb_refl s : jsstring_eqb s s = true.
Proof. induction s as [|c s IH]; simpl; [reflexivity|]. now rewrite N.eqb_refl. Qed.

Lemma getItem_setItem k v st : getItem k (setItem k v st) = Some v.
Proof. unfold setItem. simpl. now rewrite jsstring_eqb_refl. Qed.

Lemma getItem_removeItem k st : getItem k (removeItem k st) = None.
Proof.
  unfold removeItem. induction st as [|[k' v] st IH]; simpl; [reflexivity|].
  destruct (jsstring_eqb k k') eqn:E; simpl; [exact IH|]. now rewrite E.
Qed.

(** X16.  A key entered in the modal is kept across a reload of the page:
    after [handleApiKeySubmit] with a field that is not empty, the page
    loaded anew has the key in its state and the modal closed, and the
    next message typed is sent with that key in the address. *)
Theorem saved_key_survives_reload (a : App) (s : jsstring) :
  tempApiKey a <> [] -> forallb is_white_space s = false ->
  let a' := reload (handleApiKeySubmit a) in
  apiKey (world a') = tempApiKey a /\
  showApiModal a' = false /\
  exists w1 fr,
    handleSendMessage_begin (setInput s (world a')) = (w1, Some fr) /\
    fetched w1 =
      fetched (world a) ++
      [{| url := apiUrl (tempApiKey a);
          contents := [{| role := str "user"; part_text := Str s |}] |}].
Proof.
  intros K B. cbv zeta. unfold handleApiKeySubmit.
  destruct (tempApiKey a) as [|c r] eqn:T; [contradiction|].
  unfold reload, restoreSession. cbn [localStorage].
  rewrite getItem_setItem. cbn [world showApiModal apiKey setApiKey].
  split; [reflexivity|]. split; [reflexivity|].
  rewrite handleSendMessage_begin_accepted; [|split; [exact B | reflexivity]].
  do 2 eexists. split; reflexivity.
Qed.

Lemma saved_key_survives_reload_witness :
  let a := {| world := typed [] [] 1; theme := str "dark"; showApiModal := true;
              tempApiKey := str "key"; isRecording := false;
              localStorage := [] |} in
  tempApiKey a <> [] /\ forallb is_white_space (str "Hello") = false /\
  apiKey (world (reload (handleApiKeySubmit a))) = str "key" /\
  showApiModal (reload (handleApiKeySubmit a)) = false.
Proof.
  cbv zeta.
  assert (K : str "key" <> []) by discriminate.
  split; [exact K|]. split; [reflexivity|].
  destruct (saved_key_survives_reload
              {| world := typed [] [] 1; theme := str "dark"; showApiModal := true;
                 tempApiKey := str "key"; isRecording := false;
                 localStorage := [] |}
              (str "Hello") K eq_refl) as (E1 & E2 & _).
  split; assumption.
Defined.

(** X17.  After [handleLogout] the key is gone for good: the state has no
    key and no history and shows the modal, the storage has no key, and a
    reload of the page finds none and shows the modal again. *)
Theorem logout_forgets_key (a : App) :
  let a1 := handleLogout a in
  let a2 := reload a1 in
  apiKey (world a1) = [] /\ messages (world a1) = [] /\ showApiModal a1 = true /\
  getItem rugved_api_key (localStorage a1) = None /\
  apiKey (world a2) = [] /\ messages (world a2) = [] /\ showApiModal a2 = true.
Proof.
  cbv zeta. unfold reload, restoreSession, handleLogout.
  cbn [localStorage world showApiModal]. rewrite getItem_removeItem.
  repeat split.
Qed.

(** X18.  [handleLogout] does not touch a request under way: the pending
    flag stays set, so nothing can be sent until the request settles, and
    when it settles the second variant puts its one message, reply or
    apology, into the emptied history on its own. *)
Theorem reply_after_logout_stands_alone rt fr settled (a : App) :
  isTyping (world a) = true ->
  (forall s,
      handleSendMessage_begin (setInput s (world (handleLogout a)))
      = (setInput s (world (handleLogout a)), None)) /\
  exists m,
    messages (Variant2.handleSendMessage_resume rt fr settled
                (world (handleLogout a))) = [m] /\
    sender m = ai.
Proof.
  intros T. split.
  - intros s. apply handleSendMessage_begin_refused. right. exact T.
  - destruct (Variant2_resume_outcome rt fr settled (world (handleLogout a)))
      as [_ [(t & _ & M & _) | (e & M & _)]]; rewrite M; eexists; split; reflexivity.
Qed.

Lemma reply_after_logout_stands_alone_witness :
  let a := {| world := sending (typed (str "key") (str "Hello") 1);
              theme := str "dark"; showApiModal := false;
              tempApiKey := str "key"; isRecording := false;
              localStorage := [(rugved_api_key, str "key")] |} in
  isTyping (world a) = true /\
  exists m,
    messages (Variant2.handleSendMessage_resume v8 {| frame_voiceOutput := true |}
                (Rejected (str "Failed to fetch")) (world (handleLogout a))) = [m] /\
    sender m = ai.
Proof.
  cbv zeta. split; [reflexivity|].
  apply (reply_after_logout_stands_alone v8 {| frame_voiceOutput := true |}
           (Rejected (str "Failed to fetch"))
           {| world := sending (typed (str "key") (str "Hello") 1);
              theme := str "dark"; showApiModal := false;
              tempApiKey := str "key"; isRecording := false;
              localStorage := [(rugved_api_key, str "key")] |}).
  reflexivity.
Defined.

(** X19.  [handleLogout] leaves the field of the modal as it is: the key
    entered before is still in it, and submitting the modal again logs in
    with the same key and stores it again. *)
Theorem logout_keeps_the_field (a : App) :
  tempApiKey a <> [] ->
  let a' := handleApiKeySubmit (handleLogout (handleApiKeySubmit a)) in
  apiKey (world a') = tempApiKey a /\
  showApiModal a' = false /\
  getItem rugved_api_key (localStorage a') = Some (tempApiKey a).
Proof.
  intros K. cbv zeta.
  destruct (tempApiKey a) as [|c r] eqn:T; [contradiction|].
  assert (E : handleApiKeySubmit a =
              {| world := setApiKey (c :: r) (world a); theme := theme a;
                 showApiModal := false; tempApiKey := c :: r;
                 isRecording := isRecording a;
                 localStorage := setItem rugved_api_key (c :: r) (localStorage a) |}).
  { unfold handleApiKeySubmit. now rewrite T. }
  rewrite E. unfold handleLogout, handleApiKeySubmit.
  cbn [tempApiKey world showApiModal localStorage apiKey setApiKey].
  rewrite getItem_setItem. repeat split.
Qed.

Lemma logout_keeps_the_field_witness :
  let a := {| world := typed [] [] 1; theme := str "dark"; showApiModal := true;
              tempApiKey := str "key"; isRecording := false;
              localStorage := [] |} in
  tempApiKey a <> [] /\
  apiKey (world (handleApiKeySubmit (handleLogout (handleApiKeySubmit a)))) = str "key".
Proof.
  cbv zeta.
  assert (K : str "key" <> []) by discriminate.
  split; [exact K|].
  exact (proj1 (logout_keeps_the_field
                  {| world := typed [] [] 1; theme := str "dark";
                     showApiModal := true; tempApiKey := str "key";
                     isRecording := false; localStorage := [] |} K)).
Defined.

(** X20.  A recognized utterance is put into the input and nothing more:
    the history and the requests are as before and the recording flag is
    off; the next call of [handleSendMessage] sends it as the user message,
    word for word, if it is not blank and no request is pending. *)
Theorem recognized_utterance_is_sent (transcript : jsstring) (a : App) :
  isTyping (world a) = false -> forallb is_white_space transcript = false ->
  let a' := onresult transcript a in
  isRecording a' = false /\
  messages (world a') = messages (world a) /\
  fetched (world a') = fetched (world a) /\
  exists w1 fr,
    handleSendMessage_begin (world a') = (w1, Some fr) /\
    messages w1 =
      messages (world a) ++
      [{| text := Str transcript; sender := user; error := false;
          id := now (world a) |}].
Proof.
  intros T B. cbv zeta. unfold onresult.
  cbn [isRecording setIsRecording world with_world messages fetched setInput].
  repeat split.
  rewrite handleSendMessage_begin_accepted; [|split; [exact B | exact T]].
  do 2 eexists. split; reflexivity.
Qed.

Lemma recognized_utterance_is_sent_witness :
  let a := {| world := typed (str "key") [] 1; theme := str "dark";
              showApiModal := false; tempApiKey := str "key";
              isRecording := true; localStorage := [] |} in
  isTyping (world a) = false /\
  forallb is_white_space (str "hello there") = false /\
  isRecording (onresult (str "hello there") a) = false /\
  input (world (onresult (str "hello there") a)) = str "hello there".
Proof.
  cbv zeta. split; [reflexivity|]. split; [reflexivity|].
  destruct (recognized_utterance_is_sent (str "hello there")
              {| world := typed (str "key") [] 1; theme := str "dark";
                 showApiModal := false; tempApiKey := str "key";
                 isRecording := true; localStorage := [] |} eq_refl eq_refl)
    as (R & _).
  split; [exact R | reflexivity].
Defined.

(** X21.  A call of [handleSendMessage], accepted or refused, whatever
    the request settles to, never removes or changes a stored message: the
    history after it is the history before it with at most three messages
    appended in the first variant and at most two in the second. *)
Theorem history_is_append_only rt settled later (w : World) :
  (exists added,
      messages (Variant1.handleSendMessage rt settled later w) = messages w ++ added /\
      (length added <= 3)%nat)
  /\
  (exists added,
      messages (Variant2.handleSendMessage rt settled later w) = messages w ++ added /\
      (length added <= 2)%nat).
Proof.
  destruct (forallb is_white_space (input w)) eqn:B;
    [|destruct (isTyping w) eqn:T].
  1,2: assert (R : handleSendMessage_begin w = (w, None))
         by (apply handleSendMessage_begin_refused; auto);
       unfold Variant1.handleSendMessage, Variant2.handleSendMessage; rewrite R;
       split; exists []; rewrite app_nil_r; split; auto; simpl; lia.
  assert (A : accepts w) by (split; assumption).
  rewrite (Variant1_turn _ _ _ _ A), (Variant2_turn _ _ _ _ A). split.
  - destruct (Variant1_resume_world rt {| frame_voiceOutput := voiceOutput w |}
                settled (tick later (sending w)))
      as [(e & E) | (v & [(V & E) | [(V & t & -> & E) | (V & N & e & E)]])];
      rewrite E; clear E.
    + eexists. cbn [messages setIsTyping setMessages console_error].
      change (messages (tick later (sending w))) with (messages w ++ [userMessage w]).
      rewrite app_two. split; [reflexivity | simpl; lia].
    + eexists. cbn [messages setIsTyping setMessages].
      change (messages (tick later (sending w))) with (messages w ++ [userMessage w]).
      rewrite app_two. split; [reflexivity | simpl; lia].
    + eexists.
      destruct (speechSynthesis (tick later (sending w)) && truthy (Str (trim t)));
        cbn [messages setIsTyping setMessages utter];
        change (messages (tick later (sending w))) with (messages w ++ [userMessage w]);
        rewrite app_two; (split; [reflexivity | simpl; lia]).
    + eexists. cbn [messages setIsTyping setMessages console_error].
      change (messages (tick later (sending w))) with (messages w ++ [userMessage w]).
      rewrite <- !app_assoc. split; [reflexivity | simpl; lia].
  - destruct (Variant2_resume_outcome rt {| frame_voiceOutput := voiceOutput w |}
                settled (tick later (sending w)))
      as [_ [(t & _ & M & _) | (e & M & _)]];
      rewrite M;
      change (messages (tick later (sending w))) with (messages w ++ [userMessage w]);
      rewrite app_two; eexists; (split; [reflexivity | simpl; lia]).
Qed.
